(** * Panasonic / Kaseikyo infrared codec and A/C state model

    A shallow embedding of [src/ir_Panasonic.cpp]: the 48-bit command
    encoder and decoder, the two-section A/C frame decoder, and the
    [IRPanasonicAc] state class with its checksum, variant and flag logic.

    Machine integers are [Z] with the wrap-around written at every store;
    the fixed-size byte buffers are lists indexed with stdpp's lookup and
    insert. *)

From Equations Require Import Equations.
From stdpp Require Import base list.
From Stdlib Require Import ZArith Lia Bool.

#[local] Open Scope Z_scope.

(** ** Machine integers *)

Definition wrap (w x : Z) : Z := x mod 2 ^ w.

Definition uint8 : Z -> Z := wrap 8.
Definition uint16 : Z -> Z := wrap 16.
Definition uint32 : Z -> Z := wrap 32.
Definition uint64 : Z -> Z := wrap 64.

(** [a[i]] on a C array: reading outside the list (undefined in C)
    yields 0 here; [<[i:=v]>] outside the list leaves it as it is. *)
Definition rd (a : list Z) (i : nat) : Z := default 0 (a !! i).

(** ** Constants of [ir_Panasonic.h]

    The header is not part of the sources at hand: its constants are the
    fields of a class, and every result below holds for each instance
    that meets the hypotheses the result lists. *)

Inductive panasonic_ac_remote_model_t : Set :=
  | kPanasonicUnknown
  | kPanasonicLke
  | kPanasonicNke
  | kPanasonicDke
  | kPanasonicJke.

Class ir_Panasonic_h : Type := {
  kPanasonicBits : Z;
  kPanasonicAcBits : Z;
  kPanasonicAcStateLength : Z;
  kPanasonicAcChecksumInit : Z;
  kPanasonicKnownGoodState : list Z;
  kPanasonicAcTolerance : Z;
  kPanasonicAcExcess : Z;
  kPanasonicAcAuto : Z;
  kPanasonicAcDry : Z;
  kPanasonicAcCool : Z;
  kPanasonicAcHeat : Z;
  kPanasonicAcFan : Z;
  kPanasonicAcMinTemp : Z;
  kPanasonicAcMaxTemp : Z;
  kPanasonicAcFanModeTemp : Z;
  kPanasonicAcQuiet : Z;
  kPanasonicAcPowerful : Z;
  kPanasonicAcSwingHAuto : Z;
  kPanasonicAcSwingHMiddle : Z;
  kPanasonicAcSwingHFullLeft : Z;
  kPanasonicAcSwingHLeft : Z;
  kPanasonicAcSwingHRight : Z;
  kPanasonicAcSwingHFullRight : Z
}.

(** Modelled from the spec: [sumBytes] of IRutils, which is not among the
    sources: "sum of all bytes but the last, with a protocol-defined
    initial seed, modulo 256".  It adds the first [length] bytes of
    [start] to the seed [init] in an 8-bit accumulator. *)
Definition sumBytes (start : list Z) (length : Z) (init : Z) : Z :=
  fold_left (fun checksum b => uint8 (checksum + b))
            (take (Z.to_nat length) start) (uint8 init).

(** The plain sum of a run of bytes, to state what a checksum is. *)
Definition total (bytes : list Z) : Z := foldr Z.add 0 bytes.

(** ** The A/C state class [IRPanasonicAc] *)

Record IRPanasonicAc : Type := {
  remote_state : list Z;
  _temp : Z;
  _swingh : Z
}.

Definition peek (i : nat) (s : IRPanasonicAc) : Z := rd (remote_state s) i.

Definition poke (i : nat) (v : Z) (s : IRPanasonicAc) : IRPanasonicAc :=
  {| remote_state := <[i := v]> (remote_state s);
     _temp := _temp s;
     _swingh := _swingh s |}.

Definition set_temp (v : Z) (s : IRPanasonicAc) : IRPanasonicAc :=
  {| remote_state := remote_state s; _temp := v; _swingh := _swingh s |}.

Definition set_swingh (v : Z) (s : IRPanasonicAc) : IRPanasonicAc :=
  {| remote_state := remote_state s; _temp := _temp s; _swingh := v |}.

(** The two mutually recursive flag setters are one function on a tag;
    [setQuiet] and [setPowerful] below are its two instances. *)
Inductive flag_setter : Set := SetQuiet | SetPowerful.

Section IRPanasonicAc.
Context `{H : ir_Panasonic_h}.

Definition stateReset (s : IRPanasonicAc) : IRPanasonicAc :=
  {| remote_state :=
       take (Z.to_nat kPanasonicAcStateLength) kPanasonicKnownGoodState
       ++ drop (Z.to_nat kPanasonicAcStateLength) (remote_state s);
     _temp := 25;
     _swingh := kPanasonicAcSwingHMiddle |}.

Definition validChecksum (state : list Z) (length : Z) : bool :=
  if length <? 2 then false
  else rd state (Z.to_nat (length - 1))
       =? sumBytes state (length - 1) kPanasonicAcChecksumInit.

Definition calcChecksum (state : list Z) (length : Z) : Z :=
  sumBytes state (length - 1) kPanasonicAcChecksumInit.

Definition fixChecksum (length : Z) (s : IRPanasonicAc) : IRPanasonicAc :=
  poke (Z.to_nat (length - 1)) (calcChecksum (remote_state s) length) s.

Definition getModel (s : IRPanasonicAc) : panasonic_ac_remote_model_t :=
  if (peek 17 s =? 0x00) && negb (Z.land (peek 23 s) 0x80 =? 0)
  then kPanasonicJke
  else if (peek 17 s =? 0x06) && (Z.land (peek 13 s) 0x0F =? 0x02)
  then kPanasonicLke
  else if (peek 23 s =? 0x01) && (peek 25 s =? 0x06)
  then kPanasonicDke
  else if peek 17 s =? 0x06
  then kPanasonicNke
  else kPanasonicUnknown.

Definition getSwingHorizontal (s : IRPanasonicAc) : Z := peek 17 s.

Definition validSwingH (desired_direction : Z) : bool :=
  (desired_direction =? kPanasonicAcSwingHAuto)
  || (desired_direction =? kPanasonicAcSwingHMiddle)
  || (desired_direction =? kPanasonicAcSwingHFullLeft)
  || (desired_direction =? kPanasonicAcSwingHLeft)
  || (desired_direction =? kPanasonicAcSwingHRight)
  || (desired_direction =? kPanasonicAcSwingHFullRight).

Definition setSwingH (desired_direction : Z) (s : IRPanasonicAc)
  : IRPanasonicAc :=
  if negb (validSwingH desired_direction) then s
  else
    let s := set_swingh desired_direction s in
    let direction := desired_direction in
    match getModel s with
    | kPanasonicDke => poke 17 direction s
    | kPanasonicNke | kPanasonicLke => poke 17 kPanasonicAcSwingHMiddle s
    | _ => s
    end.

Definition setModel (model : panasonic_ac_remote_model_t)
                    (s : IRPanasonicAc) : IRPanasonicAc :=
  match model with
  | kPanasonicDke | kPanasonicJke | kPanasonicLke | kPanasonicNke =>
      let s := poke 13 (uint8 (Z.land (peek 13 s) 0xF0)) s in
      let s := poke 17 0x00 s in
      let s := poke 23 0x81 s in
      let s := poke 25 0x00 s in
      match model with
      | kPanasonicLke =>
          let s := poke 13 (uint8 (Z.lor (peek 13 s) 0x02)) s in
          poke 17 0x06 s
      | kPanasonicDke =>
          let s := poke 23 0x01 s in
          let s := poke 25 0x06 s in
          setSwingH (_swingh s) s
      | kPanasonicNke => poke 17 0x06 s
      | kPanasonicJke => s
      | _ => s
      end
  | _ => s
  end.

(** [fixChecksum()] is called without an argument: the default of the
    header is the state length, the checksum being the last byte. *)
Definition getRaw (s : IRPanasonicAc) : list Z * IRPanasonicAc :=
  let s := fixChecksum kPanasonicAcStateLength s in
  (remote_state s, s).

Definition getTemp (s : IRPanasonicAc) : Z := Z.shiftr (peek 14 s) 1.

Definition setTemp (celsius : Z) (remember : bool) (s : IRPanasonicAc)
  : IRPanasonicAc :=
  let temperature := Z.max celsius kPanasonicAcMinTemp in
  let temperature := Z.min temperature kPanasonicAcMaxTemp in
  let s := poke 14 (uint8 (Z.shiftl temperature 1)) s in
  if remember then set_temp temperature s else s.

Definition getMode (s : IRPanasonicAc) : Z := Z.shiftr (peek 13 s) 4.

Definition setMode (desired : Z) (s : IRPanasonicAc) : IRPanasonicAc :=
  let mode := kPanasonicAcAuto in
  let '(mode, s) :=
    if desired =? kPanasonicAcFan
    then (desired, setTemp kPanasonicAcFanModeTemp false s)
    else if (desired =? kPanasonicAcAuto) || (desired =? kPanasonicAcCool)
            || (desired =? kPanasonicAcHeat) || (desired =? kPanasonicAcDry)
    then (desired, setTemp (_temp s) true s)
    else (mode, s) in
  let s := poke 13 (uint8 (Z.land (peek 13 s) 0x0F)) s in
  poke 13 (uint8 (Z.lor (peek 13 s) (Z.shiftl mode 4))) s.

Definition getQuiet (s : IRPanasonicAc) : bool :=
  negb (Z.land (peek 21 s) kPanasonicAcQuiet =? 0).

Definition getPowerful (s : IRPanasonicAc) : bool :=
  negb (Z.land (peek 21 s) kPanasonicAcPowerful =? 0).

Definition flag_bit (f : flag_setter) : Z :=
  match f with
  | SetQuiet => kPanasonicAcQuiet
  | SetPowerful => kPanasonicAcPowerful
  end.

Definition other_flag (f : flag_setter) : flag_setter :=
  match f with SetQuiet => SetPowerful | SetPowerful => SetQuiet end.

(** [setQuiet(true)] calls [setPowerful(false)] and the other way
    round; a call with [false] calls nothing, which is the measure. *)
Equations? setFlag (f : flag_setter) (state : bool) (s : IRPanasonicAc)
  : IRPanasonicAc by wf (if state then 1%nat else 0%nat) lt :=
  setFlag f true s :=
    let s := setFlag (other_flag f) false s in
    poke 21 (uint8 (Z.lor (peek 21 s) (flag_bit f))) s;
  setFlag f false s :=
    poke 21 (uint8 (Z.land (peek 21 s) (Z.lnot (flag_bit f)))) s.
Proof. simpl. lia. Qed.

Definition setQuiet : bool -> IRPanasonicAc -> IRPanasonicAc :=
  setFlag SetQuiet.

Definition setPowerful : bool -> IRPanasonicAc -> IRPanasonicAc :=
  setFlag SetPowerful.

End IRPanasonicAc.

(** ** The 48-bit command encoder of [IRsend] *)

Definition encodePanasonic (manufacturer device subdevice function : Z) : Z :=
  let checksum := uint8 (Z.lxor (Z.lxor device subdevice) function) in
  Z.lor (Z.lor (Z.lor (Z.lor (Z.shiftl manufacturer 32)
                             (Z.shiftl device 24))
                      (Z.shiftl subdevice 16))
               (Z.shiftl function 8))
        checksum.

(** ** Timing constants of [ir_Panasonic.cpp] *)

Definition kPanasonicTick : Z := 432.
Definition kPanasonicHdrMarkTicks : Z := 8.
Definition kPanasonicHdrMark : Z := kPanasonicHdrMarkTicks * kPanasonicTick.
Definition kPanasonicHdrSpaceTicks : Z := 4.
Definition kPanasonicHdrSpace : Z := kPanasonicHdrSpaceTicks * kPanasonicTick.
Definition kPanasonicBitMarkTicks : Z := 1.
Definition kPanasonicBitMark : Z := kPanasonicBitMarkTicks * kPanasonicTick.
Definition kPanasonicOneSpaceTicks : Z := 3.
Definition kPanasonicOneSpace : Z := kPanasonicOneSpaceTicks * kPanasonicTick.
Definition kPanasonicZeroSpaceTicks : Z := 1.
Definition kPanasonicZeroSpace : Z := kPanasonicZeroSpaceTicks * kPanasonicTick.
Definition kPanasonicEndGap : Z := 5000.
Definition kPanasonicAcSectionGap : Z := 10000.
Definition kPanasonicAcSection1Length : Z := 8.
Definition kPanasonicAcMessageGap : Z := 100000.

(** ** The capture record and the matching primitives of [IRrecv]

    [IRrecv.h] and the generic matchers are outside the sources at hand.
    The decoders below take them as a class: the layout constants, the
    default tolerance and excess that a call without these arguments
    gets, and the five matchers with all their arguments written out.
    [matchData] receives the buffer from the sample it is pointed at. *)

Inductive decode_type_t : Set := UNKNOWN | PANASONIC | PANASONIC_AC.

Record match_result_t : Type := {
  success : bool;
  data : Z;
  used : Z
}.

Record decode_results : Type := {
  rawbuf : list Z;
  rawlen : Z;
  value : Z;
  address : Z;
  command : Z;
  decode_type : decode_type_t;
  bits : Z;
  state : list Z
}.

Class IRrecv_h : Type := {
  kHeader : Z;
  kFooter : Z;
  kStartOffset : Z;
  kRawTick : Z;
  kTolerance : Z;
  kMarkExcess : Z;
  match_ : Z -> Z -> Z -> Z -> bool;
  matchAtLeast : Z -> Z -> Z -> Z -> bool;
  matchMark : Z -> Z -> Z -> Z -> bool;
  matchSpace : Z -> Z -> Z -> Z -> bool;
  matchData : list Z -> Z -> Z -> Z -> Z -> Z -> Z -> Z -> bool -> match_result_t
}.

(** ** A monad for the decoders

    A decoder runs on the capture record, which it may update, and on a
    log of the [rawbuf] indices it has read (latest first).  A step
    either leaves the function with its boolean or goes on. *)

Record world : Type := {
  results : decode_results;
  reads : list Z
}.

Inductive step (A : Type) : Type :=
  | Return (b : bool)
  | Continue (a : A).
Arguments Return {A} b.
Arguments Continue {A} a.

Definition M (A : Type) : Type := world -> step A * world.

Definition ret {A} (a : A) : M A := fun w => (Continue a, w).

Definition bind {A B} (m : M A) (k : A -> M B) : M B :=
  fun w => match m w with
           | (Return b, w') => (Return b, w')
           | (Continue a, w') => k a w'
           end.

Definition return_ {A} (b : bool) : M A := fun w => (Return b, w).

Declare Scope decoder_scope.
Delimit Scope decoder_scope with decoder.
Notation "x <- m ;; k" := (bind m (fun x => k))
  (at level 100, m at next level, right associativity) : decoder_scope.
Notation "m ;; k" := (bind m (fun _ => k))
  (at level 100, right associativity) : decoder_scope.

Definition get {A} (f : decode_results -> A) : M A :=
  fun w => (Continue (f (results w)), w).

(** [results->rawbuf[i]] *)
Definition rawbuf_at (i : Z) : M Z :=
  fun w => (Continue (rd (rawbuf (results w)) (Z.to_nat i)),
            {| results := results w; reads := i :: reads w |}).

Definition modify (f : decode_results -> decode_results) : M unit :=
  fun w => (Continue tt, {| results := f (results w); reads := reads w |}).

Definition set_value (v : Z) (r : decode_results) : decode_results :=
  {| rawbuf := rawbuf r; rawlen := rawlen r; value := v;
     address := address r; command := command r;
     decode_type := decode_type r; bits := bits r; state := state r |}.

Definition set_address (v : Z) (r : decode_results) : decode_results :=
  {| rawbuf := rawbuf r; rawlen := rawlen r; value := value r;
     address := v; command := command r;
     decode_type := decode_type r; bits := bits r; state := state r |}.

Definition set_command (v : Z) (r : decode_results) : decode_results :=
  {| rawbuf := rawbuf r; rawlen := rawlen r; value := value r;
     address := address r; command := v;
     decode_type := decode_type r; bits := bits r; state := state r |}.

Definition set_decode_type (v : decode_type_t) (r : decode_results)
  : decode_results :=
  {| rawbuf := rawbuf r; rawlen := rawlen r; value := value r;
     address := address r; command := command r;
     decode_type := v; bits := bits r; state := state r |}.

Definition set_bits (v : Z) (r : decode_results) : decode_results :=
  {| rawbuf := rawbuf r; rawlen := rawlen r; value := value r;
     address := address r; command := command r;
     decode_type := decode_type r; bits := v; state := state r |}.

(** [results->state[i] = v] *)
Definition set_state (i : Z) (v : Z) (r : decode_results) : decode_results :=
  {| rawbuf := rawbuf r; rawlen := rawlen r; value := value r;
     address := address r; command := command r;
     decode_type := decode_type r; bits := bits r;
     state := <[Z.to_nat i := v]> (state r) |}.

(** Running a decoder on a capture record, with an empty log. *)
Definition run (m : M bool) (r : decode_results) : bool * world :=
  match m {| results := r; reads := [] |} with
  | (Return b, w) => (b, w)
  | (Continue b, w) => (b, w)
  end.

Section IRrecv.
Context `{P : ir_Panasonic_h} `{R : IRrecv_h}.

#[local] Open Scope decoder_scope.

(** [matchData(&(results->rawbuf[offset]), nbits, ...)]: the primitive
    gets the buffer from [offset] on; the [2 * nbits] samples of the
    bits it is asked for are logged as read. *)
Definition matchData_at (offset nbits onemark onespace zeromark zerospace
                         tolerance excess : Z) (MSBfirst : bool)
  : M match_result_t :=
  fun w =>
    (Continue (matchData (drop (Z.to_nat offset) (rawbuf (results w)))
                         nbits onemark onespace zeromark zerospace
                         tolerance excess MSBfirst),
     {| results := results w;
        reads := rev (map (fun k => offset + Z.of_nat k)
                          (seq 0 (Z.to_nat (2 * nbits))))
                 ++ reads w |}).

Definition decodePanasonic (nbits : Z) (strict : bool) (manufacturer : Z)
  : M bool :=
  rawlen_ <- get rawlen ;;
  if rawlen_ <? 2 * nbits + kHeader + kFooter - 1 then return_ false else
  if strict && negb (nbits =? kPanasonicBits) then return_ false else
  let offset := kStartOffset in
  (* Header *)
  x <- rawbuf_at offset ;;
  if negb (matchMark x kPanasonicHdrMark kTolerance kMarkExcess)
  then return_ false else
  x <- rawbuf_at offset ;;
  let offset := uint16 (offset + 1) in
  let m_tick := uint32 (x * kRawTick / kPanasonicHdrMarkTicks) in
  x <- rawbuf_at offset ;;
  if negb (matchSpace x kPanasonicHdrSpace kTolerance kMarkExcess)
  then return_ false else
  x <- rawbuf_at offset ;;
  let offset := uint16 (offset + 1) in
  let s_tick := uint32 (x * kRawTick / kPanasonicHdrSpaceTicks) in
  (* Data *)
  data_result <- matchData_at offset nbits
                   (uint32 (kPanasonicBitMarkTicks * m_tick))
                   (uint32 (kPanasonicOneSpaceTicks * s_tick))
                   (uint32 (kPanasonicBitMarkTicks * m_tick))
                   (uint32 (kPanasonicZeroSpaceTicks * s_tick))
                   kTolerance kMarkExcess true ;;
  if negb (success data_result) then return_ false else
  (* [data] and [data_result.data] are 64-bit *)
  let data := uint64 (data data_result) in
  let offset := uint16 (offset + used data_result) in
  (* Footer *)
  x <- rawbuf_at offset ;;
  let offset := uint16 (offset + 1) in
  if negb (match_ x (uint32 (kPanasonicBitMarkTicks * m_tick)) kTolerance 0)
  then return_ false else
  rawlen_ <- get rawlen ;;
  gap_bad <- (if offset <? rawlen_
              then x <- rawbuf_at offset ;;
                   ret (negb (matchAtLeast x kPanasonicEndGap kTolerance 0))
              else ret false) ;;
  if (gap_bad : bool) then return_ false else
  (* Compliance *)
  let address := uint32 (Z.shiftr data 32) in
  let command := uint32 (Z.land data 0xFFFFFFFF) in
  if strict && negb (address =? manufacturer) then return_ false else
  let checksumOrig := uint8 (Z.land data 0xFF) in
  let checksumCalc :=
    uint8 (Z.land (Z.lxor (Z.lxor (Z.shiftr data 24) (Z.shiftr data 16))
                          (Z.shiftr data 8)) 0xFF) in
  if strict && negb (checksumOrig =? checksumCalc) then return_ false else
  (* Success *)
  modify (set_value data) ;;
  modify (set_address address) ;;
  modify (set_command command) ;;
  modify (set_decode_type PANASONIC) ;;
  modify (set_bits nbits) ;;
  return_ true.

(** The loop
    [for (; offset <= rawlen - 16 && i < limit; i++, offset += used)]
    of both sections.  [i] grows by one at every turn, so
    [limit - i] turns are all it can take: [n] counts them down.
    [dataBitsSoFar] is written and never read, and is left out. *)
Fixpoint section_data (n : nat) (limit i offset m_tick s_tick : Z)
  : M (Z * Z) :=
  rawlen_ <- get rawlen ;;
  if (offset <=? rawlen_ - 16) && (i <? limit) then
    match n with
    | O => ret (i, offset)
    | S n' =>
        data_result <- matchData_at offset 8
                         (uint32 (kPanasonicBitMarkTicks * m_tick))
                         (uint32 (kPanasonicOneSpaceTicks * s_tick))
                         (uint32 (kPanasonicBitMarkTicks * m_tick))
                         (uint32 (kPanasonicZeroSpaceTicks * s_tick))
                         kPanasonicAcTolerance kPanasonicAcExcess false ;;
        if negb (success data_result) then return_ false else
        modify (set_state i (uint8 (data data_result))) ;;
        section_data n' limit (uint16 (i + 1))
                     (uint16 (offset + used data_result)) m_tick s_tick
    end
  else ret (i, offset).

Definition decodePanasonicAC (nbits : Z) (strict : bool) : M bool :=
  if negb (nbits mod 8 =? 0) then return_ false else
  let min_nr_of_messages := 1 in
  if strict && negb (nbits =? kPanasonicAcBits) then return_ false else
  rawlen_ <- get rawlen ;;
  if rawlen_ <? min_nr_of_messages * (2 * nbits + kHeader + kFooter) - 1
  then return_ false else
  let offset := kStartOffset in
  (* Header *)
  x <- rawbuf_at offset ;;
  if negb (matchMark x kPanasonicHdrMark
                     kPanasonicAcTolerance kPanasonicAcExcess)
  then return_ false else
  x <- rawbuf_at offset ;;
  let offset := uint16 (offset + 1) in
  let m_tick := uint32 (x * kRawTick / kPanasonicHdrMarkTicks) in
  x <- rawbuf_at offset ;;
  if negb (matchSpace x kPanasonicHdrSpace
                      kPanasonicAcTolerance kPanasonicAcExcess)
  then return_ false else
  x <- rawbuf_at offset ;;
  let offset := uint16 (offset + 1) in
  let s_tick := uint32 (x * kRawTick / kPanasonicHdrSpaceTicks) in
  let i := 0 in
  (* Data (Section #1) *)
  io <- section_data (Z.to_nat (kPanasonicAcSection1Length - i))
                     kPanasonicAcSection1Length i offset m_tick s_tick ;;
  let '(i, offset) := io in
  (* Section footer *)
  x <- rawbuf_at offset ;;
  let offset := uint16 (offset + 1) in
  if negb (matchMark x (uint32 (kPanasonicBitMarkTicks * m_tick))
                     kPanasonicAcTolerance kPanasonicAcExcess)
  then return_ false else
  x <- rawbuf_at offset ;;
  let offset := uint16 (offset + 1) in
  if negb (matchSpace x kPanasonicAcSectionGap
                      kPanasonicAcTolerance kPanasonicAcExcess)
  then return_ false else
  (* Header *)
  x <- rawbuf_at offset ;;
  let offset := uint16 (offset + 1) in
  if negb (matchMark x (uint32 (kPanasonicHdrMarkTicks * m_tick))
                     kPanasonicAcTolerance kPanasonicAcExcess)
  then return_ false else
  x <- rawbuf_at offset ;;
  let offset := uint16 (offset + 1) in
  if negb (matchSpace x (uint32 (kPanasonicHdrSpaceTicks * s_tick))
                      kPanasonicAcTolerance kPanasonicAcExcess)
  then return_ false else
  (* Data (Section #2) *)
  io <- section_data (Z.to_nat (nbits / 8 - i)) (nbits / 8)
                     i offset m_tick s_tick ;;
  let '(i, offset) := io in
  (* Message footer *)
  x <- rawbuf_at offset ;;
  let offset := uint16 (offset + 1) in
  if negb (matchMark x (uint32 (kPanasonicBitMarkTicks * m_tick))
                     kPanasonicAcTolerance kPanasonicAcExcess)
  then return_ false else
  rawlen_ <- get rawlen ;;
  gap_bad <- (if offset <=? rawlen_
              then x <- rawbuf_at offset ;;
                   ret (negb (matchAtLeast x kPanasonicAcMessageGap
                                           kTolerance 0))
              else ret false) ;;
  if (gap_bad : bool) then return_ false else
  (* Compliance *)
  st <- get state ;;
  if strict && (negb (rd st 0 =? 0x02) || negb (rd st 1 =? 0x20)
                || negb (rd st 8 =? 0x02) || negb (rd st 9 =? 0x20))
  then return_ false else
  if strict && negb (validChecksum st (nbits / 8)) then return_ false else
  (* Success *)
  modify (set_decode_type PANASONIC_AC) ;;
  modify (set_bits nbits) ;;
  return_ true.

(** *** The stages of [decodePanasonic] before compliance

    The values the decoder computes on its way through a capture [r],
    and what it asks of them at each stage. *)

Definition hdr_mark (r : decode_results) : Z :=
  rd (rawbuf r) (Z.to_nat kStartOffset).

Definition hdr_space (r : decode_results) : Z :=
  rd (rawbuf r) (Z.to_nat (uint16 (kStartOffset + 1))).

Definition m_tick_of (r : decode_results) : Z :=
  uint32 (hdr_mark r * kRawTick / kPanasonicHdrMarkTicks).

Definition s_tick_of (r : decode_results) : Z :=
  uint32 (hdr_space r * kRawTick / kPanasonicHdrSpaceTicks).

Definition data_offset : Z := uint16 (uint16 (kStartOffset + 1) + 1).

Definition data_match (r : decode_results) (nbits : Z) : match_result_t :=
  matchData (drop (Z.to_nat data_offset) (rawbuf r)) nbits
            (uint32 (kPanasonicBitMarkTicks * m_tick_of r))
            (uint32 (kPanasonicOneSpaceTicks * s_tick_of r))
            (uint32 (kPanasonicBitMarkTicks * m_tick_of r))
            (uint32 (kPanasonicZeroSpaceTicks * s_tick_of r))
            kTolerance kMarkExcess true.

Definition footer_offset (r : decode_results) (nbits : Z) : Z :=
  uint16 (data_offset + used (data_match r nbits)).

Definition gap_offset (r : decode_results) (nbits : Z) : Z :=
  uint16 (footer_offset r nbits + 1).

Record passes_stages (r : decode_results) (nbits : Z) (d : Z) : Prop := {
  stage_length : 2 * nbits + kHeader + kFooter - 1 <= rawlen r;
  stage_hdr_mark :
    matchMark (hdr_mark r) kPanasonicHdrMark kTolerance kMarkExcess = true;
  stage_hdr_space :
    matchSpace (hdr_space r) kPanasonicHdrSpace kTolerance kMarkExcess
    = true;
  stage_data : success (data_match r nbits) = true;
  stage_value : uint64 (data (data_match r nbits)) = d;
  stage_footer :
    match_ (rd (rawbuf r) (Z.to_nat (footer_offset r nbits)))
           (uint32 (kPanasonicBitMarkTicks * m_tick_of r)) kTolerance 0
    = true;
  stage_gap :
    gap_offset r nbits < rawlen r ->
    matchAtLeast (rd (rawbuf r) (Z.to_nat (gap_offset r nbits)))
                 kPanasonicEndGap kTolerance 0 = true
}.

End IRrecv.

(** ** A reference instance

    Concrete values for the two classes, on which the decoders run and
    the results below are exercised. *)

Module Reference.

(** Microseconds in a raw tick of the capture. *)
Definition rawTick : Z := 2.

(** Modelled from the spec: the pulse-timing match primitives, which
    are outside the sources ("compare ... an individual mark/space pair
    within a tolerance").  A duration of [measured] raw ticks matches
    [desired] microseconds when it lies within [tolerance] percent of
    it, widened by [delta]; this is the lower end. *)
Definition ticksLow (usecs tolerance delta : Z) : Z :=
  Z.max (usecs * (100 - tolerance) / 100 - delta) 0.

(** Modelled from the spec: the upper end of the tolerance of the absent
    match primitive. *)
Definition ticksHigh (usecs tolerance delta : Z) : Z :=
  usecs * (100 + tolerance) / 100 + 1 + delta.

(** Modelled from the spec: [match] of IRrecv, absent from the sources;
    the duration lies between the two ends of the tolerance. *)
Definition match_usecs (measured desired tolerance delta : Z) : bool :=
  let measured := measured * rawTick in
  (ticksLow desired tolerance delta <=? measured)
  && (measured <=? ticksHigh desired tolerance delta).

(** Modelled from the spec: [matchAtLeast] of IRrecv, absent from the
    sources, for "a trailing gap >= end-gap-minimum"; the
    capture stops at its timeout of 15 ms, so no longer gap is asked
    for, and a sample of 0 stands for the end of the capture. *)
Definition atLeast_usecs (measured desired tolerance delta : Z) : bool :=
  let measured := measured * rawTick in
  if measured =? 0 then true
  else ticksLow (Z.min desired 15000) tolerance delta <=? measured.

(** Modelled from the spec: [matchMark] of IRrecv, absent from the
    sources; a mark is expected longer by [excess]. *)
Definition mark_usecs (measured desired tolerance excess : Z) : bool :=
  match_usecs measured (desired + excess) tolerance 0.

(** Modelled from the spec: [matchSpace] of IRrecv, absent from the
    sources; a space is expected shorter by [excess]. *)
Definition space_usecs (measured desired tolerance excess : Z) : bool :=
  match_usecs measured (desired - excess) tolerance 0.

(** Modelled from the spec: "bit significance order is reversed relative
    to the wire"; the low [n] bits of [input] in opposite order. *)
Fixpoint reverseBits (n : nat) (input output : Z) : Z :=
  match n with
  | O => output
  | S n' => reverseBits n' (Z.shiftr input 1)
              (Z.lor (Z.shiftl output 1) (Z.land input 1))
  end.

(** Modelled from the spec: the bit extractor, "consumes N mark/space
    pairs and returns a value with N bits ... plus the count of raw
    samples consumed.  Fails (reports non-success) if any pair does not
    match either template within tolerance." *)
Fixpoint data_bits (n : nat) (ptr : list Z) (acc consumed : Z)
                   (onemark onespace zeromark zerospace
                    tolerance excess : Z) : match_result_t :=
  match n with
  | O => {| success := true; data := acc; used := consumed |}
  | S n' =>
      if mark_usecs (rd ptr 0) onemark tolerance excess
         && space_usecs (rd ptr 1) onespace tolerance excess
      then data_bits n' (drop 2 ptr) (Z.lor (Z.shiftl acc 1) 1)
                     (consumed + 2) onemark onespace zeromark zerospace
                     tolerance excess
      else if mark_usecs (rd ptr 0) zeromark tolerance excess
              && space_usecs (rd ptr 1) zerospace tolerance excess
      then data_bits n' (drop 2 ptr) (Z.shiftl acc 1)
                     (consumed + 2) onemark onespace zeromark zerospace
                     tolerance excess
      else {| success := false; data := acc; used := consumed |}
  end.

(** Modelled from the spec: [matchData] of IRrecv, absent from the
    sources; the extracted bits, turned round when the least significant
    bit came first. *)
Definition data_usecs (ptr : list Z)
                      (nbits onemark onespace zeromark zerospace
                       tolerance excess : Z) (MSBfirst : bool)
  : match_result_t :=
  let r := data_bits (Z.to_nat nbits) ptr 0 0 onemark onespace
                     zeromark zerospace tolerance excess in
  if MSBfirst then r
  else {| success := success r;
          data := reverseBits (Z.to_nat (used r / 2)) (data r) 0;
          used := used r |}.

#[export] Instance recv : IRrecv_h := {|
  kHeader := 2;
  kFooter := 2;
  kStartOffset := 1;
  kRawTick := rawTick;
  kTolerance := 25;
  kMarkExcess := 50;
  match_ := match_usecs;
  matchAtLeast := atLeast_usecs;
  matchMark := mark_usecs;
  matchSpace := space_usecs;
  matchData := data_usecs
|}.

#[export] Instance header : ir_Panasonic_h := {|
  kPanasonicBits := 48;
  kPanasonicAcBits := 216;
  kPanasonicAcStateLength := 27;
  kPanasonicAcChecksumInit := 0xF4;
  kPanasonicKnownGoodState :=
    [0x02; 0x20; 0xE0; 0x04; 0x00; 0x00; 0x00; 0x06;
     0x02; 0x20; 0xE0; 0x04; 0x00; 0x00; 0x00; 0x80; 0x00; 0x00;
     0x00; 0x0E; 0xE0; 0x00; 0x00; 0x81; 0x00; 0x00; 0x00];
  kPanasonicAcTolerance := 40;
  kPanasonicAcExcess := 0;
  kPanasonicAcAuto := 0;
  kPanasonicAcDry := 2;
  kPanasonicAcCool := 3;
  kPanasonicAcHeat := 4;
  kPanasonicAcFan := 6;
  kPanasonicAcMinTemp := 16;
  kPanasonicAcMaxTemp := 30;
  kPanasonicAcFanModeTemp := 27;
  kPanasonicAcQuiet := 1;
  kPanasonicAcPowerful := 0x20;
  kPanasonicAcSwingHAuto := 0xD;
  kPanasonicAcSwingHMiddle := 0x6;
  kPanasonicAcSwingHFullLeft := 0x9;
  kPanasonicAcSwingHLeft := 0xA;
  kPanasonicAcSwingHRight := 0xB;
  kPanasonicAcSwingHFullRight := 0xC
|}.

(** *** Captures

    A capture of nominal timing, in raw ticks of 2 microseconds: sample 0
    is the gap before the message, then header mark and space, a mark
    and a space for every bit, and the footer mark. *)

Definition pulses (bs : list bool) : list Z :=
  flat_map (fun b : bool => [216; if b then 648 else 216]) bs.

Definition msb_first (n : nat) (v : Z) : list bool :=
  map (fun k => Z.testbit v (Z.of_nat k)) (rev (seq 0 n)).

Definition lsb_first (n : nat) (v : Z) : list bool :=
  map (fun k => Z.testbit v (Z.of_nat k)) (seq 0 n).

Definition capture (buf : list Z) : decode_results :=
  {| rawbuf := buf; rawlen := Z.of_nat (length buf);
     value := 0; address := 0; command := 0;
     decode_type := UNKNOWN; bits := 0;
     state := repeat 0 27 |}.

(** The 48-bit command of the spec's example and its capture. *)
Definition command48 : Z := encodePanasonic 0x4004 0x01 0x02 0x03.

Definition capture48 : decode_results :=
  capture ([10000; 1728; 864] ++ pulses (msb_first 48 command48) ++ [216]).

(** A freshly reset A/C state, and the capture of its two sections. *)
Definition fresh : IRPanasonicAc :=
  stateReset {| remote_state := repeat 0 27; _temp := 0; _swingh := 0 |}.

Definition captureAC : decode_results :=
  let bytes := fst (getRaw fresh) in
  capture ([10000; 1728; 864]
           ++ flat_map (fun b => pulses (lsb_first 8 b)) (take 8 bytes)
           ++ [216; 5000; 1728; 864]
           ++ flat_map (fun b => pulses (lsb_first 8 b)) (drop 8 bytes)
           ++ [216]).

End Reference.

(** ** The rest of the A/C state class and the senders

    The constants of [ir_Panasonic.h] that the remaining setters and the
    senders use are the fields of a second class. *)

Class ir_Panasonic_h_more : Type := {
  kPanasonicFreq : Z;
  kPanasonicAcPower : Z;
  kPanasonicAcFanMax : Z;
  kPanasonicAcFanAuto : Z;
  kPanasonicAcFanOffset : Z;
  kPanasonicAcSwingVAuto : Z;
  kPanasonicAcSwingVUp : Z;
  kPanasonicAcSwingVDown : Z
}.

(** A call of [sendGeneric], which is outside the sources: the senders
    are what they hand to it, in the order of the calls.  The first form
    takes the message as a 64-bit value, the second as a pointer into a
    byte array (the array from the byte it points at). *)
Inductive sendGeneric_call : Type :=
  | sendGeneric_value (headermark headerspace onemark onespace zeromark
                       zerospace footermark gap mesgtime data nbits
                       frequency : Z) (MSBfirst : bool)
                      (repeat dutycycle : Z)
  | sendGeneric_bytes (headermark headerspace onemark onespace zeromark
                       zerospace footermark gap : Z) (dataptr : list Z)
                      (nbytes frequency : Z) (MSBfirst : bool)
                      (repeat dutycycle : Z).

Definition kPanasonicMinCommandLengthTicks : Z := 378.
Definition kPanasonicMinCommandLength : Z :=
  uint32 (kPanasonicMinCommandLengthTicks * kPanasonicTick).

Section IRPanasonicAc_more.
Context `{H : ir_Panasonic_h} `{H' : ir_Panasonic_h_more}.

Definition kPanasonicMinGapTicks : Z :=
  uint16 (kPanasonicMinCommandLengthTicks
          - (kPanasonicHdrMarkTicks + kPanasonicHdrSpaceTicks
             + kPanasonicBits
               * (kPanasonicBitMarkTicks + kPanasonicOneSpaceTicks)
             + kPanasonicBitMarkTicks)).

Definition kPanasonicMinGap : Z := uint32 (kPanasonicMinGapTicks * kPanasonicTick).

Definition sendPanasonic64 (data nbits repeat : Z) : list sendGeneric_call :=
  [sendGeneric_value kPanasonicHdrMark kPanasonicHdrSpace
                     kPanasonicBitMark kPanasonicOneSpace
                     kPanasonicBitMark kPanasonicZeroSpace
                     kPanasonicBitMark
                     kPanasonicMinGap kPanasonicMinCommandLength
                     data nbits kPanasonicFreq true repeat 50].

Definition sendPanasonic (address data nbits repeat : Z)
  : list sendGeneric_call :=
  sendPanasonic64 (Z.lor (Z.shiftl address 32) data) nbits repeat.

(** The two sections that one turn of the loop of [sendPanasonicAC]
    sends. *)
Definition sendPanasonicAC_sections (data : list Z) (nbytes : Z)
  : list sendGeneric_call :=
  [sendGeneric_bytes kPanasonicHdrMark kPanasonicHdrSpace
                     kPanasonicBitMark kPanasonicOneSpace
                     kPanasonicBitMark kPanasonicZeroSpace
                     kPanasonicBitMark kPanasonicAcSectionGap
                     data kPanasonicAcSection1Length
                     kPanasonicFreq false 0 50;
   sendGeneric_bytes kPanasonicHdrMark kPanasonicHdrSpace
                     kPanasonicBitMark kPanasonicOneSpace
                     kPanasonicBitMark kPanasonicZeroSpace
                     kPanasonicBitMark kPanasonicAcMessageGap
                     (drop (Z.to_nat kPanasonicAcSection1Length) data)
                     (uint16 (nbytes - kPanasonicAcSection1Length))
                     kPanasonicFreq false 0 50].

(** [for (uint16_t r = 0; r <= repeat; r++)]: the counter is 16-bit like
    [repeat], so nothing in the code bounds the turns; [fuel] does, and
    [None] is the loop still running when it is used up. *)
Fixpoint sendPanasonicAC_loop (fuel : nat) (data : list Z)
                              (nbytes repeat r : Z)
  : option (list sendGeneric_call) :=
  if r <=? repeat then
    match fuel with
    | O => None
    | S fuel' =>
        match sendPanasonicAC_loop fuel' data nbytes repeat
                                   (uint16 (r + 1)) with
        | Some later => Some (sendPanasonicAC_sections data nbytes ++ later)
        | None => None
        end
    end
  else Some [].

Definition sendPanasonicAC (fuel : nat) (data : list Z) (nbytes repeat : Z)
  : option (list sendGeneric_call) :=
  if nbytes <? kPanasonicAcStateLength then Some []
  else sendPanasonicAC_loop fuel data nbytes repeat 0.

(** [for (uint8_t i = 0; i < kPanasonicAcStateLength; i++)
       remote_state[i] = state[i];] *)
Definition setRaw (state : list Z) (s : IRPanasonicAc) : IRPanasonicAc :=
  foldl (fun s i => poke i (rd state i) s) s
        (seq 0 (Z.to_nat kPanasonicAcStateLength)).

Definition on (s : IRPanasonicAc) : IRPanasonicAc :=
  poke 13 (uint8 (Z.lor (peek 13 s) kPanasonicAcPower)) s.

Definition off (s : IRPanasonicAc) : IRPanasonicAc :=
  poke 13 (uint8 (Z.land (peek 13 s) (Z.lnot kPanasonicAcPower))) s.

Definition setPower (state : bool) (s : IRPanasonicAc) : IRPanasonicAc :=
  if state then on s else off s.

Definition getPower (s : IRPanasonicAc) : bool :=
  Z.land (peek 13 s) kPanasonicAcPower =? kPanasonicAcPower.

Definition getSwingVertical (s : IRPanasonicAc) : Z :=
  Z.land (peek 16 s) 0x0F.

Definition setSwingV (desired_elevation : Z) (s : IRPanasonicAc)
  : IRPanasonicAc :=
  let elevation := desired_elevation in
  let elevation :=
    if negb (elevation =? kPanasonicAcSwingVAuto)
    then let elevation := Z.max elevation kPanasonicAcSwingVUp in
         Z.min elevation kPanasonicAcSwingVDown
    else elevation in
  let s := poke 16 (uint8 (Z.land (peek 16 s) 0xF0)) s in
  poke 16 (uint8 (Z.lor (peek 16 s) elevation)) s.

Definition setFan (speed : Z) (s : IRPanasonicAc) : IRPanasonicAc :=
  if (speed <=? kPanasonicAcFanMax) || (speed =? kPanasonicAcFanAuto)
  then poke 16 (uint8 (Z.lor (Z.land (peek 16 s) 0x0F)
                             (Z.shiftl (speed + kPanasonicAcFanOffset) 4)))
            s
  else s.

Definition getFan (s : IRPanasonicAc) : Z :=
  uint8 (Z.shiftr (peek 16 s) 4 - kPanasonicAcFanOffset).

End IRPanasonicAc_more.

Module ReferenceMore.

#[export] Instance more : ir_Panasonic_h_more := {|
  kPanasonicFreq := 36700;
  kPanasonicAcPower := 1;
  kPanasonicAcFanMax := 4;
  kPanasonicAcFanAuto := 7;
  kPanasonicAcFanOffset := 3;
  kPanasonicAcSwingVAuto := 0xF;
  kPanasonicAcSwingVUp := 0x1;
  kPanasonicAcSwingVDown := 0x5
|}.

End ReferenceMore.

(** ** Notions for the decoders' contracts *)

(** What a decoder may have done to the capture record [r] when it is
    [r']: the samples and the fields of the command decoder are as they
    were, and so is the state array from index [lim] on. *)
Definition frame (lim : Z) (r r' : decode_results) : Prop :=
  rawbuf r' = rawbuf r
  /\ rawlen r' = rawlen r
  /\ value r' = value r
  /\ address r' = address r
  /\ command r' = command r
  /\ length (state r') = length (state r)
  /\ forall k : nat, lim <= Z.of_nat k -> state r' !! k = state r !! k.

(** A decoder started on a capture record that meets [I] leaves the
    function with a boolean and a record that meet [Post], or goes on
    with a value and a record that meet [Q]. *)
Definition hoare {A} (I : decode_results -> Prop) (m : M A)
                 (Post : bool -> decode_results -> Prop)
                 (Q : A -> decode_results -> Prop) : Prop :=
  forall w, I (results w) ->
            match m w with
            | (Return b, w') => Post b (results w')
            | (Continue a, w') => Q a (results w')
            end.

(** ** Notions used to state the results *)

Section Notions.
Context `{H : ir_Panasonic_h}.

(** The temperature that [setTemp] stores for a request of [celsius]. *)
Definition clamp (celsius : Z) : Z :=
  Z.min (Z.max celsius kPanasonicAcMinTemp) kPanasonicAcMaxTemp.

(** The state that [setModel(kPanasonicDke)] hands to [setSwingH]. *)
Definition dke_bytes (s : IRPanasonicAc) : IRPanasonicAc :=
  poke 25 0x06 (poke 23 0x01 (poke 25 0x00 (poke 23 0x81 (poke 17 0x00
    (poke 13 (uint8 (Z.land (peek 13 s) 0xF0)) s))))).

End Notions.

Section Compliance.
Context `{P : ir_Panasonic_h} `{R : IRrecv_h}.

(** The outcome of compliance on a command [d] that came through the
    stages. *)
Definition complies (strict : bool) (manufacturer d : Z) : bool :=
  negb strict
  || ((uint32 (Z.shiftr d 32) =? manufacturer)
      && (uint8 (Z.land d 0xFF)
          =? uint8 (Z.land (Z.lxor (Z.lxor (Z.shiftr d 24) (Z.shiftr d 16))
                                   (Z.shiftr d 8)) 0xFF))).

Definition decoded (nbits d : Z) (r : decode_results) : decode_results :=
  set_bits nbits
    (set_decode_type PANASONIC
       (set_command (uint32 (Z.land d 0xFFFFFFFF))
          (set_address (uint32 (Z.shiftr d 32)) (set_value d r)))).

End Compliance.

(** A decoder keeps the capture record when every way out of it other
    than [return true] leaves the record as it found it. *)
Definition keeps {A} (m : M A) : Prop :=
  forall w, match m w with
            | (Return true, _) => True
            | (_, w') => results w' = results w
            end.

(** A decoder commits when it can only [return true]. *)
Definition commits {A} (m : M A) : Prop :=
  forall w, exists w', m w = (Return true, w').

(** The three payload bytes and the checksum byte of a 48-bit command. *)
Definition device_of (v : Z) : Z := Z.land (Z.shiftr v 24) 0xFF.
Definition subdevice_of (v : Z) : Z := Z.land (Z.shiftr v 16) 0xFF.
Definition function_of (v : Z) : Z := Z.land (Z.shiftr v 8) 0xFF.
Definition checksum_of (v : Z) : Z := Z.land v 0xFF.

(** * Results *)

(** ** Bytes and buffers *)

Lemma uint8_land (x : Z) : uint8 x = Z.land x 255.
Proof. unfold uint8, wrap. change 255 with (Z.ones 8). now rewrite Z.land_ones. Qed.

Lemma uint8_range (x : Z) : 0 <= uint8 x < 256.
Proof. unfold uint8, wrap. apply Z.mod_pos_bound. reflexivity. Qed.

Lemma uint8_small (x : Z) : 0 <= x < 256 -> uint8 x = x.
Proof. intros Hx. unfold uint8, wrap. now apply Z.mod_small. Qed.

Lemma testbit_byte_high (x n : Z) : 0 <= x < 256 -> 8 <= n -> Z.testbit x n = false.
Proof.
  intros Hx Hn. rewrite <- (uint8_small x Hx). unfold uint8, wrap.
  apply Z.mod_pow2_bits_high. lia.
Qed.

Lemma testbit_uint8 (x n : Z) :
  0 <= n -> Z.testbit (uint8 x) n = (n <? 8) && Z.testbit x n.
Proof.
  intros Hn. unfold uint8, wrap. destruct (Z.ltb_spec n 8).
  - now rewrite Z.mod_pow2_bits_low.
  - now rewrite Z.mod_pow2_bits_high by lia.
Qed.

Lemma rd_insert_eq (a : list Z) (i : nat) (v : Z) :
  (i < length a)%nat -> rd (<[i := v]> a) i = v.
Proof. intros Hi. unfold rd. now rewrite list_lookup_insert_eq. Qed.

Lemma rd_insert_ne (a : list Z) (i j : nat) (v : Z) :
  i <> j -> rd (<[i := v]> a) j = rd a j.
Proof. intros Hij. unfold rd. now rewrite list_lookup_insert_ne. Qed.

Lemma peek_poke_eq (i : nat) (v : Z) (s : IRPanasonicAc) :
  (i < length (remote_state s))%nat -> peek i (poke i v s) = v.
Proof. apply rd_insert_eq. Qed.

Lemma peek_poke_ne (i j : nat) (v : Z) (s : IRPanasonicAc) :
  i <> j -> peek j (poke i v s) = peek j s.
Proof. apply rd_insert_ne. Qed.

Lemma length_poke (i : nat) (v : Z) (s : IRPanasonicAc) :
  length (remote_state (poke i v s)) = length (remote_state s).
Proof. apply length_insert. Qed.

Lemma peek_set_swingh (i : nat) (v : Z) (s : IRPanasonicAc) :
  peek i (set_swingh v s) = peek i s.
Proof. reflexivity. Qed.

Lemma peek_set_temp (i : nat) (v : Z) (s : IRPanasonicAc) :
  peek i (set_temp v s) = peek i s.
Proof. reflexivity. Qed.

(** Reading back through a stack of stores. *)
Ltac buffer :=
  repeat first
    [ rewrite peek_set_swingh
    | rewrite peek_set_temp
    | rewrite peek_poke_ne by discriminate
    | rewrite peek_poke_eq by (rewrite ?length_poke; simpl; lia) ].

(** ** Checksum *)

Lemma sumBytes_fold (bytes : list Z) (acc : Z) :
  fold_left (fun checksum b => uint8 (checksum + b)) bytes (uint8 acc)
  = (acc + total bytes) mod 256.
Proof.
  revert acc. induction bytes as [|b bytes IH]; intros acc; simpl.
  - now rewrite Z.add_0_r.
  - replace (uint8 (uint8 acc + b)) with (uint8 (acc + b)).
    + rewrite IH. f_equal. lia.
    + unfold uint8, wrap. change (2 ^ 8) with 256.
      now rewrite Zplus_mod_idemp_l.
Qed.

Lemma sumBytes_total (start : list Z) (length init : Z) :
  sumBytes start length init
  = (init + total (take (Z.to_nat length) start)) mod 256.
Proof. apply sumBytes_fold. Qed.

Section Checksum.
Context `{H : ir_Panasonic_h}.

(** C4.  Whatever the state buffer holds, the buffer that [getRaw]
    returns passes [validChecksum]: its last byte is the sum of all the
    bytes before it plus the checksum seed, modulo 256. *)
Theorem getRaw_validChecksum (s : IRPanasonicAc) :
  2 <= kPanasonicAcStateLength ->
  length (remote_state s) = Z.to_nat kPanasonicAcStateLength ->
  let buf := fst (getRaw s) in
  validChecksum buf kPanasonicAcStateLength = true
  /\ rd buf (Z.to_nat (kPanasonicAcStateLength - 1))
     = (kPanasonicAcChecksumInit
        + total (take (Z.to_nat (kPanasonicAcStateLength - 1)) buf))
       mod 256.
Proof.
  intros HL Hlen buf.
  assert (Hlast : (Z.to_nat (kPanasonicAcStateLength - 1)
                   < length (remote_state s))%nat) by lia.
  assert (Hrd : rd buf (Z.to_nat (kPanasonicAcStateLength - 1))
                = sumBytes buf (kPanasonicAcStateLength - 1)
                           kPanasonicAcChecksumInit).
  { subst buf. unfold getRaw, fixChecksum, calcChecksum, poke. simpl.
    rewrite rd_insert_eq by exact Hlast.
    unfold sumBytes. now rewrite take_insert_ge by lia. }
  split.
  - unfold validChecksum.
    destruct (Z.ltb_spec kPanasonicAcStateLength 2); [lia|].
    rewrite Hrd. apply Z.eqb_refl.
  - rewrite Hrd. apply sumBytes_total.
Qed.

End Checksum.

(** ** Quiet and Powerful *)

Section Flags.
Context `{H : ir_Panasonic_h}.

(** The two setters as the source writes them. *)
Lemma setQuiet_eq (state : bool) (s : IRPanasonicAc) :
  setQuiet state s
  = if state
    then let s := setPowerful false s in
         poke 21 (uint8 (Z.lor (peek 21 s) kPanasonicAcQuiet)) s
    else poke 21 (uint8 (Z.land (peek 21 s) (Z.lnot kPanasonicAcQuiet))) s.
Proof. unfold setQuiet, setPowerful. destruct state; now simp setFlag. Qed.

Lemma setPowerful_eq (state : bool) (s : IRPanasonicAc) :
  setPowerful state s
  = if state
    then let s := setQuiet false s in
         poke 21 (uint8 (Z.lor (peek 21 s) kPanasonicAcPowerful)) s
    else poke 21 (uint8 (Z.land (peek 21 s) (Z.lnot kPanasonicAcPowerful))) s.
Proof. unfold setQuiet, setPowerful. destruct state; now simp setFlag. Qed.

Lemma peek_setFlag_true (f : flag_setter) (s : IRPanasonicAc) :
  (21 < length (remote_state s))%nat ->
  peek 21 (setFlag f true s)
  = uint8 (Z.lor (uint8 (Z.land (peek 21 s)
                                (Z.lnot (flag_bit (other_flag f)))))
                 (flag_bit f)).
Proof. intros Hlen. simp setFlag. cbv zeta. now buffer. Qed.

(** A byte that had [other] cleared and then [bit] set has [bit] set
    and [other] clear, when the two masks are bytes that share no bit. *)
Lemma set_after_clear (x bit other : Z) :
  0 < bit < 256 -> 0 < other < 256 -> Z.land bit other = 0 ->
  let y := uint8 (Z.lor (uint8 (Z.land x (Z.lnot other))) bit) in
  Z.land y bit = bit /\ Z.land y other = 0.
Proof.
  intros Hbit Hother Hdisjoint y. subst y.
  assert (Hno : forall n, Z.testbit bit n && Z.testbit other n = false).
  { intros n. now rewrite <- Z.land_spec, Hdisjoint, Z.bits_0. }
  split; apply Z.bits_inj'; intros n Hn;
    rewrite ?Z.bits_0, !Z.land_spec, testbit_uint8, Z.lor_spec,
            testbit_uint8, Z.land_spec, Z.lnot_spec by exact Hn;
    specialize (Hno n).
  - destruct (Z.ltb_spec n 8) as [Hlt|Hge].
    + destruct (Z.testbit x n), (Z.testbit other n), (Z.testbit bit n);
        reflexivity.
    + now rewrite (testbit_byte_high bit n) by lia.
  - destruct (Z.testbit x n), (Z.testbit other n), (Z.testbit bit n),
             (n <? 8); simpl in *; congruence.
Qed.

Lemma setFlag_true (f : flag_setter) (s : IRPanasonicAc) :
  0 < kPanasonicAcQuiet < 256 ->
  0 < kPanasonicAcPowerful < 256 ->
  Z.land kPanasonicAcQuiet kPanasonicAcPowerful = 0 ->
  (21 < length (remote_state s))%nat ->
  Z.land (peek 21 (setFlag f true s)) (flag_bit f) = flag_bit f
  /\ Z.land (peek 21 (setFlag f true s)) (flag_bit (other_flag f)) = 0.
Proof.
  intros HQ HP Hdisjoint Hlen. rewrite peek_setFlag_true by exact Hlen.
  destruct f; simpl flag_bit; simpl other_flag;
    apply set_after_clear; try assumption.
  now rewrite Z.land_comm.
Qed.

Lemma length_setFlag (f : flag_setter) (b : bool) (s : IRPanasonicAc) :
  length (remote_state (setFlag f b s)) = length (remote_state s).
Proof.
  destruct b; simp setFlag; cbv zeta; now rewrite !length_poke.
Qed.

(** C5.  From every state, [setPowerful(true)] then [setQuiet(true)]
    leaves Quiet set and Powerful clear, and [setQuiet(true)] then
    [setPowerful(true)] leaves Powerful set and Quiet clear: the later
    call clears the other flag before it sets its own.  The two masks
    are non-zero bytes without a common bit. *)
Theorem quiet_powerful_exclusive (s : IRPanasonicAc) :
  0 < kPanasonicAcQuiet < 256 ->
  0 < kPanasonicAcPowerful < 256 ->
  Z.land kPanasonicAcQuiet kPanasonicAcPowerful = 0 ->
  (21 < length (remote_state s))%nat ->
  (let s' := setQuiet true (setPowerful true s) in
   getQuiet s' = true /\ getPowerful s' = false)
  /\ (let s' := setPowerful true (setQuiet true s) in
      getPowerful s' = true /\ getQuiet s' = false).
Proof.
  intros HQ HP Hdisjoint Hlen. unfold setQuiet, setPowerful.
  split; cbv zeta.
  - destruct (setFlag_true SetQuiet (setFlag SetPowerful true s))
      as [Hset Hclear]; try assumption.
    { now rewrite length_setFlag. }
    unfold getQuiet, getPowerful. simpl in Hset, Hclear.
    rewrite Hset, Hclear. split; [|reflexivity].
    destruct (Z.eqb_spec kPanasonicAcQuiet 0); [lia|reflexivity].
  - destruct (setFlag_true SetPowerful (setFlag SetQuiet true s))
      as [Hset Hclear]; try assumption.
    { now rewrite length_setFlag. }
    unfold getQuiet, getPowerful. simpl in Hset, Hclear.
    rewrite Hset, Hclear. split; [|reflexivity].
    destruct (Z.eqb_spec kPanasonicAcPowerful 0); [lia|reflexivity].
Qed.

End Flags.

(** ** Temperature and mode *)

Section Temperature.
Context `{H : ir_Panasonic_h}.

Lemma clamp_idem (celsius : Z) : clamp (clamp celsius) = clamp celsius.
Proof. unfold clamp. lia. Qed.

Lemma clamp_range (celsius : Z) :
  0 <= kPanasonicAcMinTemp -> 0 <= kPanasonicAcMaxTemp < 128 ->
  0 <= clamp celsius < 128.
Proof. unfold clamp. lia. Qed.

Lemma halve_doubled (t : Z) :
  0 <= t < 128 -> Z.shiftr (uint8 (Z.shiftl t 1)) 1 = t.
Proof.
  intros Ht. rewrite Z.shiftl_mul_pow2 by lia.
  rewrite uint8_small by lia.
  rewrite Z.shiftr_div_pow2 by lia. now apply Z.div_mul.
Qed.

Lemma temp_setTemp (celsius : Z) (s : IRPanasonicAc) :
  _temp (setTemp celsius true s) = clamp celsius.
Proof. reflexivity. Qed.

Lemma temp_setTemp_forget (celsius : Z) (s : IRPanasonicAc) :
  _temp (setTemp celsius false s) = _temp s.
Proof. reflexivity. Qed.

Lemma peek_setTemp (celsius : Z) (remember : bool) (s : IRPanasonicAc) :
  (14 < length (remote_state s))%nat ->
  peek 14 (setTemp celsius remember s) = uint8 (Z.shiftl (clamp celsius) 1).
Proof. intros Hlen. unfold setTemp. destruct remember; now buffer. Qed.

Lemma length_setTemp (celsius : Z) (remember : bool) (s : IRPanasonicAc) :
  length (remote_state (setTemp celsius remember s))
  = length (remote_state s).
Proof. unfold setTemp. destruct remember; apply length_poke. Qed.

(** What [setMode] does to the temperature byte and to the remembered
    temperature, by the branch of its [switch]. *)
Lemma setMode_fan (s : IRPanasonicAc) :
  (14 < length (remote_state s))%nat ->
  _temp (setMode kPanasonicAcFan s) = _temp s
  /\ peek 14 (setMode kPanasonicAcFan s)
     = uint8 (Z.shiftl (clamp kPanasonicAcFanModeTemp) 1)
  /\ length (remote_state (setMode kPanasonicAcFan s))
     = length (remote_state s).
Proof.
  intros Hlen. unfold setMode. rewrite Z.eqb_refl. cbv beta iota zeta.
  repeat split.
  - rewrite !peek_poke_ne by discriminate. now apply peek_setTemp.
  - now rewrite !length_poke, length_setTemp.
Qed.

Lemma setMode_other (desired : Z) (s : IRPanasonicAc) :
  desired <> kPanasonicAcFan ->
  desired = kPanasonicAcAuto \/ desired = kPanasonicAcCool
  \/ desired = kPanasonicAcHeat \/ desired = kPanasonicAcDry ->
  (14 < length (remote_state s))%nat ->
  peek 14 (setMode desired s) = uint8 (Z.shiftl (clamp (_temp s)) 1).
Proof.
  intros Hfan Hmode Hlen. unfold setMode.
  destruct (Z.eqb_spec desired kPanasonicAcFan) as [|_]; [contradiction|].
  replace ((desired =? kPanasonicAcAuto) || (desired =? kPanasonicAcCool)
           || (desired =? kPanasonicAcHeat) || (desired =? kPanasonicAcDry))
    with true.
  - cbv beta iota zeta. rewrite !peek_poke_ne by discriminate.
    now apply peek_setTemp.
  - symmetry. rewrite !orb_true_iff, !Z.eqb_eq. tauto.
Qed.

(** C6.  With a temperature [t] remembered by [setTemp(celsius, true)],
    [setMode(fan)] writes the fan-mode temperature into byte 14 and
    keeps [t] remembered, and a following [setMode] to auto, cool, heat
    or dry writes [t] back, so that [getTemp()] is [t] again.  The
    temperature limits are bytes below 128 (a temperature is stored
    doubled) and the fan-mode temperature lies between them. *)
Theorem setMode_restores_temp (s : IRPanasonicAc) (celsius desired : Z) :
  0 <= kPanasonicAcMinTemp ->
  0 <= kPanasonicAcMaxTemp < 128 ->
  kPanasonicAcMinTemp <= kPanasonicAcFanModeTemp <= kPanasonicAcMaxTemp ->
  desired <> kPanasonicAcFan ->
  desired = kPanasonicAcAuto \/ desired = kPanasonicAcCool
  \/ desired = kPanasonicAcHeat \/ desired = kPanasonicAcDry ->
  (14 < length (remote_state s))%nat ->
  let s1 := setTemp celsius true s in
  let t := _temp s1 in
  let s2 := setMode kPanasonicAcFan s1 in
  _temp s2 = t
  /\ peek 14 s2 = Z.shiftl kPanasonicAcFanModeTemp 1
  /\ getTemp s2 = kPanasonicAcFanModeTemp
  /\ getTemp (setMode desired s2) = t.
Proof.
  intros Hmin Hmax Hfantemp Hfan Hmode Hlen s1 t s2.
  assert (Hlen1 : (14 < length (remote_state s1))%nat).
  { subst s1. now rewrite length_setTemp. }
  destruct (setMode_fan s1 Hlen1) as (Htemp & Hbyte & Hlen2).
  fold s2 in Htemp, Hbyte, Hlen2.
  assert (Hclampfan : clamp kPanasonicAcFanModeTemp
                      = kPanasonicAcFanModeTemp) by (unfold clamp; lia).
  split; [exact Htemp|]. split; [|split].
  - rewrite Hbyte, Hclampfan.
    apply uint8_small. rewrite Z.shiftl_mul_pow2 by lia. lia.
  - unfold getTemp. rewrite Hbyte, Hclampfan. apply halve_doubled. lia.
  - unfold getTemp.
    rewrite setMode_other by (try assumption; lia).
    rewrite Htemp. subst t s1. rewrite temp_setTemp, clamp_idem.
    apply halve_doubled. now apply clamp_range.
Qed.

End Temperature.

(** ** Variants and horizontal swing *)

Section Variants.
Context `{H : ir_Panasonic_h}.

Lemma low_nibble_cleared (x : Z) :
  Z.land (uint8 (Z.land x 0xF0)) 0x0F = 0.
Proof.
  rewrite uint8_land, <- !Z.land_assoc. change (Z.land 255 15) with 15.
  change (Z.land 240 15) with 0. apply Z.land_0_r.
Qed.

Lemma low_nibble_lke (x : Z) :
  Z.land (uint8 (Z.lor (uint8 (Z.land x 0xF0)) 0x02)) 0x0F = 0x02.
Proof.
  rewrite !uint8_land, <- !Z.land_assoc. change (Z.land 255 15) with 15.
  rewrite Z.land_lor_distr_l, <- !Z.land_assoc.
  change (Z.land 255 15) with 15. change (Z.land 240 15) with 0.
  now rewrite Z.land_0_r.
Qed.

(** The bytes that make [getModel] answer DKE, whatever byte 17 is. *)
Lemma getModel_dke (s : IRPanasonicAc) :
  Z.land (peek 13 s) 0x0F = 0 -> peek 23 s = 0x01 -> peek 25 s = 0x06 ->
  getModel s = kPanasonicDke.
Proof.
  intros H13 H23 H25. unfold getModel. rewrite H13, H23, H25. simpl.
  rewrite !andb_false_r. reflexivity.
Qed.

Lemma setSwingH_dke (v : Z) (s : IRPanasonicAc) :
  getModel s = kPanasonicDke ->
  setSwingH v s
  = if validSwingH v then poke 17 v (set_swingh v s) else s.
Proof.
  intros Hdke. unfold setSwingH. destruct (validSwingH v); simpl; [|easy].
  replace (getModel (set_swingh v s)) with (getModel s) by reflexivity.
  now rewrite Hdke.
Qed.

Lemma getModel_dke_bytes (s : IRPanasonicAc) :
  (25 < length (remote_state s))%nat ->
  getModel (dke_bytes s) = kPanasonicDke.
Proof.
  intros Hlen. unfold dke_bytes.
  apply getModel_dke; buffer; [apply low_nibble_cleared| |]; reflexivity.
Qed.

Lemma setModel_dke (s : IRPanasonicAc) :
  (25 < length (remote_state s))%nat ->
  setModel kPanasonicDke s
  = if validSwingH (_swingh s)
    then poke 17 (_swingh s) (set_swingh (_swingh s) (dke_bytes s))
    else dke_bytes s.
Proof.
  intros Hlen. unfold setModel. cbv zeta. fold (dke_bytes s).
  now rewrite setSwingH_dke by now apply getModel_dke_bytes.
Qed.

(** C8.  [setModel] of one of the four known variants makes
    [getModel()] answer that variant, from every buffer and every cached
    swing direction; [setModel] of anything else changes nothing. *)
Theorem setModel_getModel (model : panasonic_ac_remote_model_t)
                          (s : IRPanasonicAc) :
  (25 < length (remote_state s))%nat ->
  (In model [kPanasonicJke; kPanasonicLke; kPanasonicDke; kPanasonicNke]
   -> getModel (setModel model s) = model)
  /\ (~ In model [kPanasonicJke; kPanasonicLke; kPanasonicDke;
                  kPanasonicNke]
      -> setModel model s = s).
Proof.
  intros Hlen. split.
  - intros Hknown. destruct model; simpl in Hknown;
      try (exfalso; intuition discriminate); clear Hknown.
    + (* LKE *)
      unfold setModel, getModel. cbv zeta. buffer.
      rewrite low_nibble_lke. reflexivity.
    + (* NKE *)
      unfold setModel, getModel. cbv zeta. buffer.
      rewrite low_nibble_cleared. reflexivity.
    + (* DKE *)
      rewrite setModel_dke by exact Hlen.
      destruct (validSwingH (_swingh s)).
      * apply getModel_dke; unfold dke_bytes; buffer;
          [apply low_nibble_cleared| |]; reflexivity.
      * now apply getModel_dke_bytes.
    + (* JKE *)
      unfold setModel, getModel. cbv zeta. buffer. reflexivity.
  - intros Hother. destruct model; first [reflexivity | simpl in Hother; tauto].
Qed.

(** C7.  On a state that [getModel()] classifies as JKE or as unknown,
    [setSwingH] of a valid direction [v] changes no byte of the buffer
    and remembers [v]; after a following [setModel(kPanasonicDke)] byte
    17 holds [v], which is what [getSwingHorizontal()] returns. *)
Theorem setSwingH_remembered (v : Z) (s : IRPanasonicAc) :
  validSwingH v = true ->
  getModel s = kPanasonicJke \/ getModel s = kPanasonicUnknown ->
  (25 < length (remote_state s))%nat ->
  let s1 := setSwingH v s in
  remote_state s1 = remote_state s
  /\ peek 17 s1 = peek 17 s
  /\ _swingh s1 = v
  /\ getSwingHorizontal (setModel kPanasonicDke s1) = v.
Proof.
  intros Hvalid Hmodel Hlen s1.
  assert (Hs1 : s1 = set_swingh v s).
  { subst s1. unfold setSwingH. rewrite Hvalid. simpl.
    replace (getModel (set_swingh v s)) with (getModel s) by reflexivity.
    now destruct Hmodel as [-> | ->]. }
  rewrite Hs1. repeat split.
  rewrite setModel_dke by exact Hlen.
  simpl _swingh. rewrite Hvalid. unfold getSwingHorizontal.
  apply peek_poke_eq. cbn [remote_state set_swingh]. unfold dke_bytes.
  rewrite !length_poke. cbn [remote_state set_swingh]. lia.
Qed.

End Variants.

(** ** The 48-bit command *)

Lemma testbit_small (x k n : Z) :
  0 <= k -> 0 <= x < 2 ^ k -> k <= n -> Z.testbit x n = false.
Proof.
  intros Hk Hx Hn. rewrite <- (Z.mod_small x (2 ^ k)) by exact Hx.
  apply Z.mod_pow2_bits_high. lia.
Qed.

Lemma lor_shiftl_add (hi lo k : Z) :
  0 <= k -> 0 <= lo < 2 ^ k -> Z.lor (Z.shiftl hi k) lo = hi * 2 ^ k + lo.
Proof.
  intros Hk Hlo.
  assert (Hdisjoint : Z.land (Z.shiftl hi k) lo = 0).
  { apply Z.bits_inj'. intros n Hn. rewrite Z.land_spec, Z.bits_0.
    destruct (Z.lt_ge_cases n k).
    - now rewrite Z.shiftl_spec_low.
    - rewrite (testbit_small lo k n) by assumption. apply andb_false_r. }
  rewrite <- Z.lxor_lor, <- Z.add_nocarry_lxor by exact Hdisjoint.
  now rewrite Z.shiftl_mul_pow2.
Qed.

(** Joining a value that has its low [k] bits clear with one that fits
    in them is adding the two. *)
Lemma lor_add_aligned (a lo k : Z) :
  0 <= k -> (exists hi, a = hi * 2 ^ k) -> 0 <= lo < 2 ^ k ->
  Z.lor a lo = a + lo.
Proof.
  intros Hk [hi ->] Hlo. rewrite <- Z.shiftl_mul_pow2 by exact Hk.
  rewrite lor_shiftl_add by assumption. now rewrite Z.shiftl_mul_pow2.
Qed.

Lemma land_lxor_distr (a b c : Z) :
  Z.land (Z.lxor a b) c = Z.lxor (Z.land a c) (Z.land b c).
Proof.
  apply Z.bits_inj'. intros n _.
  rewrite Z.land_spec, !Z.lxor_spec, !Z.land_spec.
  now destruct (Z.testbit a n), (Z.testbit b n), (Z.testbit c n).
Qed.

Lemma land_255_small (x : Z) : 0 <= x < 256 -> Z.land x 255 = x.
Proof. intros Hx. rewrite <- uint8_land. now apply uint8_small. Qed.

Lemma lxor_byte (a b : Z) :
  0 <= a < 256 -> 0 <= b < 256 -> 0 <= Z.lxor a b < 256.
Proof.
  intros Ha Hb.
  rewrite <- (land_255_small a Ha), <- (land_255_small b Hb).
  rewrite <- land_lxor_distr, <- uint8_land. apply uint8_range.
Qed.

Section Command48.
Variables manufacturer device subdevice function : Z.
Hypothesis Hmanufacturer : 0 <= manufacturer < 2 ^ 16.
Hypothesis Hdevice : 0 <= device < 2 ^ 8.
Hypothesis Hsubdevice : 0 <= subdevice < 2 ^ 8.
Hypothesis Hfunction : 0 <= function < 2 ^ 8.

Let checksum : Z := Z.lxor (Z.lxor device subdevice) function.
Let v : Z := encodePanasonic manufacturer device subdevice function.

Lemma checksum_byte : 0 <= checksum < 256.
Proof. subst checksum. apply lxor_byte; [apply lxor_byte|]; assumption. Qed.

Lemma encodePanasonic_sum :
  v = manufacturer * 2 ^ 32 + device * 2 ^ 24 + subdevice * 2 ^ 16
      + function * 2 ^ 8 + checksum.
Proof.
  pose proof checksum_byte as Hc.
  subst v. unfold encodePanasonic. fold checksum.
  rewrite (uint8_small checksum Hc).
  rewrite !Z.shiftl_mul_pow2 by lia.
  rewrite (lor_add_aligned (manufacturer * 2 ^ 32) (device * 2 ^ 24) 32);
    [| lia | now exists manufacturer | lia].
  rewrite (lor_add_aligned _ (subdevice * 2 ^ 16) 24);
    [| lia | exists (manufacturer * 2 ^ 8 + device); lia | lia].
  rewrite (lor_add_aligned _ (function * 2 ^ 8) 16);
    [| lia
     | exists (manufacturer * 2 ^ 16 + device * 2 ^ 8 + subdevice); lia
     | lia].
  rewrite (lor_add_aligned _ checksum 8);
    [| lia
     | exists (manufacturer * 2 ^ 24 + device * 2 ^ 16 + subdevice * 2 ^ 8
               + function); lia
     | lia].
  reflexivity.
Qed.

Lemma encodePanasonic_fields :
  0 <= v < 2 ^ 48
  /\ Z.shiftr v 32 = manufacturer
  /\ device_of v = device
  /\ subdevice_of v = subdevice
  /\ function_of v = function
  /\ checksum_of v = checksum.
Proof.
  pose proof checksum_byte as Hc. pose proof encodePanasonic_sum as Hv.
  unfold device_of, subdevice_of, function_of, checksum_of.
  rewrite <- !uint8_land. unfold uint8, wrap.
  rewrite !Z.shiftr_div_pow2 by lia.
  change (2 ^ 48) with 281474976710656.
  change (2 ^ 32) with 4294967296 in *.
  change (2 ^ 24) with 16777216 in *. change (2 ^ 16) with 65536 in *.
  change (2 ^ 8) with 256 in *.
  repeat split; try lia; Z.div_mod_to_equations; lia.
Qed.

End Command48.

(** ** Running a decoder step by step *)

Section Steps.
Context {A B : Type}.

Lemma bind_get {C} (f : decode_results -> C) (k : C -> M B) (w : world) :
  bind (get f) k w = k (f (results w)) w.
Proof. reflexivity. Qed.

Lemma bind_rawbuf_at (i : Z) (k : Z -> M B) (w : world) :
  bind (rawbuf_at i) k w
  = k (rd (rawbuf (results w)) (Z.to_nat i))
      {| results := results w; reads := i :: reads w |}.
Proof. reflexivity. Qed.

Lemma bind_modify (f : decode_results -> decode_results)
                  (k : unit -> M B) (w : world) :
  bind (modify f) k w
  = k tt {| results := f (results w); reads := reads w |}.
Proof. reflexivity. Qed.

Lemma bind_ret (a : A) (k : A -> M B) (w : world) :
  bind (ret a) k w = k a w.
Proof. reflexivity. Qed.

Lemma bind_assoc {C} (m : M A) (f : A -> M B) (k : B -> M C) (w : world) :
  bind (bind m f) k w = bind m (fun a => bind (f a) k) w.
Proof. unfold bind. now destruct (m w) as [[b|a] w']. Qed.

Lemma keeps_ret (a : A) : keeps (ret a).
Proof. intros w. reflexivity. Qed.

Lemma keeps_return (b : bool) : keeps (@return_ A b).
Proof. intros w. now destruct b. Qed.

Lemma keeps_get (f : decode_results -> A) : keeps (get f).
Proof. intros w. reflexivity. Qed.

Lemma keeps_rawbuf_at (i : Z) : keeps (rawbuf_at i).
Proof. intros w. reflexivity. Qed.

Lemma keeps_if (c : bool) (m1 m2 : M A) :
  keeps m1 -> keeps m2 -> keeps (if c then m1 else m2).
Proof. now destruct c. Qed.

Lemma keeps_bind (m : M A) (k : A -> M B) :
  keeps m -> (forall a, keeps (k a)) -> keeps (bind m k).
Proof.
  intros Hm Hk w. unfold bind. specialize (Hm w).
  destruct (m w) as [[[|]|a] w']; try assumption.
  specialize (Hk a w'). destruct (k a w') as [[[|]|b] w'']; congruence.
Qed.

Lemma commits_return : commits (@return_ A true).
Proof. intros w. now exists w. Qed.

Lemma commits_modify (f : decode_results -> decode_results) (m : M A) :
  commits m -> commits (bind (modify f) (fun _ => m)).
Proof. intros Hm w. unfold bind, modify. apply Hm. Qed.

Lemma commits_keeps (m : M A) : commits m -> keeps m.
Proof. intros Hm w. destruct (Hm w) as [w' ->]. exact I. Qed.

End Steps.

Section Decoders.
Context `{P : ir_Panasonic_h} `{R : IRrecv_h}.

Lemma bind_matchData_at {B} (offset nbits onemark onespace zeromark
                             zerospace tolerance excess : Z)
                        (MSBfirst : bool)
                        (k : match_result_t -> M B) (w : world) :
  bind (matchData_at offset nbits onemark onespace zeromark zerospace
                     tolerance excess MSBfirst) k w
  = k (matchData (drop (Z.to_nat offset) (rawbuf (results w)))
                 nbits onemark onespace zeromark zerospace
                 tolerance excess MSBfirst)
      {| results := results w;
         reads := rev (map (fun k => offset + Z.of_nat k)
                           (seq 0 (Z.to_nat (2 * nbits))))
                  ++ reads w |}.
Proof. reflexivity. Qed.

Lemma keeps_matchData_at (offset nbits onemark onespace zeromark
                          zerospace tolerance excess : Z)
                         (MSBfirst : bool) :
  keeps (matchData_at offset nbits onemark onespace zeromark zerospace
                      tolerance excess MSBfirst).
Proof. intros w. reflexivity. Qed.

Ltac exec :=
  repeat (first [ rewrite bind_assoc | rewrite bind_get
                | rewrite bind_rawbuf_at | rewrite bind_matchData_at
                | rewrite bind_modify | rewrite bind_ret ];
          cbn [results reads]).

Ltac keeping :=
  repeat first
    [ apply commits_keeps; repeat apply commits_modify;
      apply commits_return
    | apply keeps_return | apply keeps_ret | apply keeps_get
    | apply keeps_rawbuf_at | apply keeps_matchData_at
    | apply keeps_if
    | apply keeps_bind; [|intros ?] ].

Lemma decodePanasonic_keeps (nbits : Z) (strict : bool) (manufacturer : Z) :
  keeps (decodePanasonic nbits strict manufacturer).
Proof. unfold decodePanasonic. cbv zeta. keeping. Qed.

Lemma decodePanasonic_stages (r : decode_results)
                             (nbits d manufacturer : Z) (strict : bool) :
  passes_stages r nbits d ->
  (strict = true -> nbits = kPanasonicBits) ->
  exists log,
    run (decodePanasonic nbits strict manufacturer) r
    = if complies strict manufacturer d
      then (true, {| results := decoded nbits d r; reads := log |})
      else (false, {| results := r; reads := log |}).
Proof.
  intros [Hlen Hmark Hspace Hdata Hvalue Hfooter Hgap] Hbits.
  unfold gap_offset, footer_offset, data_match, data_offset,
         m_tick_of, s_tick_of, hdr_mark, hdr_space in *.
  unfold run, decodePanasonic. cbv zeta. exec.
  destruct (Z.ltb_spec (rawlen r) (2 * nbits + kHeader + kFooter - 1))
    as [|_]; [lia|].
  replace (strict && negb (nbits =? kPanasonicBits)) with false.
  2:{ destruct strict; [|reflexivity].
      rewrite Hbits by reflexivity. now rewrite Z.eqb_refl. }
  exec. rewrite Hmark. cbn [negb]. exec. rewrite Hspace. cbn [negb]. exec.
  rewrite Hdata. cbn [negb]. exec. rewrite Hfooter. cbn [negb]. exec.
  set (dm := matchData _ _ _ _ _ _ _ _ _) in *.
  rewrite Hvalue. unfold complies, decoded.
  match goal with
  | |- context [?off <? rawlen r] => destruct (Z.ltb_spec off (rawlen r)) as [Hin|_]
  end; cbv beta iota; exec; [rewrite Hgap by exact Hin; cbn [negb]|];
    (destruct strict; cbn [negb andb orb];
     [ destruct (_ =? manufacturer); cbn [negb andb orb];
       [ destruct (_ =? _); cbn [negb andb orb] |] |]);
    exec; eexists; unfold return_; reflexivity.
Qed.

Lemma decodePanasonic_out_of_spec (r : decode_results)
                                  (nbits manufacturer : Z) :
  nbits <> kPanasonicBits ->
  fst (run (decodePanasonic nbits true manufacturer) r) = false.
Proof.
  intros Hbits. unfold run, decodePanasonic. exec.
  destruct (_ <? _); [reflexivity|].
  destruct (Z.eqb_spec nbits kPanasonicBits); [contradiction|reflexivity].
Qed.

End Decoders.

(** ** The command decoder *)

Section DecodePanasonic.
Context `{P : ir_Panasonic_h} `{R : IRrecv_h}.

(** C1.  For a 16-bit manufacturer and 8-bit device, subdevice and
    function, [encodePanasonic] returns the five fields joined at bits
    32, 24, 16, 8 and 0, the last being the XOR of device, subdevice and
    function; so the low byte of the value is the XOR of its three
    payload bytes and the value passes the strict compliance test, and
    a strict decode of any capture that carries the value through the
    stages succeeds with the manufacturer as address and the three fields
    in the command. *)
Theorem encodePanasonic_decodes (manufacturer device subdevice function : Z) :
  0 <= manufacturer < 2 ^ 16 ->
  0 <= device < 2 ^ 8 ->
  0 <= subdevice < 2 ^ 8 ->
  0 <= function < 2 ^ 8 ->
  let v := encodePanasonic manufacturer device subdevice function in
  v = Z.lor (Z.lor (Z.lor (Z.lor (Z.shiftl manufacturer 32)
                                 (Z.shiftl device 24))
                          (Z.shiftl subdevice 16))
                   (Z.shiftl function 8))
            (Z.lxor (Z.lxor device subdevice) function)
  /\ checksum_of v
     = Z.lxor (Z.lxor (device_of v) (subdevice_of v)) (function_of v)
  /\ complies true manufacturer v = true
  /\ forall r : decode_results,
       passes_stages r kPanasonicBits v ->
       let out := run (decodePanasonic kPanasonicBits true manufacturer) r in
       fst out = true
       /\ value (results (snd out)) = v
       /\ address (results (snd out)) = manufacturer
       /\ device_of (command (results (snd out))) = device
       /\ subdevice_of (command (results (snd out))) = subdevice
       /\ function_of (command (results (snd out))) = function.
Proof.
  intros Hm Hd Hs Hf v.
  pose proof (checksum_byte device subdevice function Hd Hs Hf) as Hc.
  destruct (encodePanasonic_fields manufacturer device subdevice function
              Hm Hd Hs Hf) as (Hv & Hman & Hdev & Hsub & Hfun & Hsum).
  fold v in Hv, Hman, Hdev, Hsub, Hfun, Hsum.
  cbv zeta in Hc, Hsum.
  assert (Hcomplies : complies true manufacturer v = true).
  { unfold complies. cbn [negb orb].
    rewrite !land_lxor_distr.
    fold (device_of v) (subdevice_of v) (function_of v) (checksum_of v).
    rewrite Hdev, Hsub, Hfun, Hsum.
    unfold uint32, wrap. rewrite Hman, Z.mod_small by lia.
    now rewrite !Z.eqb_refl. }
  assert (Hcommand : uint32 (Z.land v 0xFFFFFFFF)
                     = device * 2 ^ 24 + subdevice * 2 ^ 16
                       + function * 2 ^ 8
                       + Z.lxor (Z.lxor device subdevice) function).
  { pose proof (encodePanasonic_sum manufacturer device subdevice function
                  Hd Hs Hf) as Hsumv.
    fold v in Hsumv. cbv zeta in Hsumv.
    change 0xFFFFFFFF with (Z.ones 32). rewrite Z.land_ones by lia.
    unfold uint32, wrap. rewrite Z.mod_mod by lia. rewrite Hsumv.
    change (2 ^ 32) with 4294967296. change (2 ^ 24) with 16777216.
    change (2 ^ 16) with 65536. change (2 ^ 8) with 256 in *.
    Z.div_mod_to_equations. lia. }
  split.
  { subst v. unfold encodePanasonic. now rewrite uint8_small by exact Hc. }
  split; [now rewrite Hdev, Hsub, Hfun, Hsum|].
  split; [exact Hcomplies|].
  intros r Hstages out.
  destruct (decodePanasonic_stages r kPanasonicBits v manufacturer true
              Hstages (fun _ => eq_refl)) as [log Hrun].
  rewrite Hcomplies in Hrun. fold out in Hrun.
  rewrite Hrun. cbn [fst snd results decoded value address command
                     set_bits set_decode_type set_command set_address
                     set_value].
  rewrite Hcommand.
  split; [reflexivity|]. split; [reflexivity|].
  split; [unfold uint32, wrap; rewrite Hman; apply Z.mod_small; lia|].
  unfold device_of, subdevice_of, function_of.
  rewrite <- !uint8_land. unfold uint8, wrap.
  rewrite !Z.shiftr_div_pow2 by lia.
  change (2 ^ 24) with 16777216. change (2 ^ 16) with 65536.
  change (2 ^ 8) with 256 in *.
  repeat split; Z.div_mod_to_equations; lia.
Qed.

(** C2.  On a capture that passes the length, header, data and footer
    stages, a strict decode returns false whenever the top 32 bits of
    the decoded value differ from the manufacturer asked for or its low
    byte differs from the XOR of its three payload bytes, and a
    non-strict decode of the same capture succeeds. *)
Theorem decodePanasonic_strictness (r : decode_results)
                                   (nbits d manufacturer : Z) :
  passes_stages r nbits d ->
  (Z.shiftr d 32 <> manufacturer
   \/ checksum_of d
      <> Z.lxor (Z.lxor (device_of d) (subdevice_of d)) (function_of d) ->
   fst (run (decodePanasonic nbits true manufacturer) r) = false)
  /\ fst (run (decodePanasonic nbits false manufacturer) r) = true.
Proof.
  intros Hstages. split.
  - intros Hbad.
    destruct (Z.eq_dec nbits kPanasonicBits) as [Hbits|Hbits];
      [|now apply decodePanasonic_out_of_spec].
    destruct (decodePanasonic_stages r nbits d manufacturer true
                Hstages (fun _ => Hbits)) as [log ->].
    replace (complies true manufacturer d) with false; [reflexivity|].
    symmetry. unfold complies. cbn [negb orb].
    apply andb_false_iff.
    assert (Hd : 0 <= d < 2 ^ 64).
    { rewrite <- (stage_value _ _ _ Hstages). unfold uint64, wrap.
      apply Z.mod_pos_bound. reflexivity. }
    assert (Htop : uint32 (Z.shiftr d 32) = Z.shiftr d 32).
    { unfold uint32, wrap. apply Z.mod_small.
      rewrite Z.shiftr_div_pow2 by lia.
      change (2 ^ 64) with (2 ^ 32 * 2 ^ 32) in Hd.
      split; [apply Z.div_pos; lia|apply Z.div_lt_upper_bound; lia]. }
    rewrite Htop, !land_lxor_distr.
    fold (device_of d) (subdevice_of d) (function_of d) (checksum_of d).
    rewrite !uint8_small.
    + destruct Hbad as [Hman|Hsum]; [left|right];
        now apply Z.eqb_neq.
    + apply lxor_byte; [apply lxor_byte|];
        unfold device_of, subdevice_of, function_of;
        rewrite <- uint8_land; apply uint8_range.
    + unfold checksum_of. rewrite <- uint8_land. apply uint8_range.
  - destruct (decodePanasonic_stages r nbits d manufacturer false
                Hstages) as [log ->]; [discriminate|reflexivity].
Qed.

(** C3.  Whenever [decodePanasonic] returns false, the fields [value],
    [address], [command], [decode_type] and [bits] of the capture record
    are what they were before the call. *)
Theorem decodePanasonic_failure_keeps (r : decode_results)
                                      (nbits : Z) (strict : bool)
                                      (manufacturer : Z) :
  let out := run (decodePanasonic nbits strict manufacturer) r in
  fst out = false ->
  value (results (snd out)) = value r
  /\ address (results (snd out)) = address r
  /\ command (results (snd out)) = command r
  /\ decode_type (results (snd out)) = decode_type r
  /\ bits (results (snd out)) = bits r.
Proof.
  intros out Hfalse.
  assert (Hkept : results (snd out) = r).
  { subst out. unfold run in *.
    pose proof (decodePanasonic_keeps nbits strict manufacturer
                  {| results := r; reads := [] |}) as Hkeeps.
    destruct (decodePanasonic nbits strict manufacturer _)
      as [[[|]|[|]] w]; simpl in *; congruence. }
  now rewrite Hkept.
Qed.

End DecodePanasonic.

(** ** The A/C frame decoder *)

Section DecodePanasonicAC.
Context `{P : ir_Panasonic_h} `{R : IRrecv_h}.

(** The count of turns never cuts a section loop short: [limit - i]
    turns are enough, and more change nothing. *)
Lemma section_data_turns (n : nat) (limit i offset m_tick s_tick : Z)
                         (w : world) :
  (Z.to_nat (limit - i) <= n)%nat -> 0 <= i -> limit < 2 ^ 16 ->
  section_data n limit i offset m_tick s_tick w
  = section_data (Z.to_nat (limit - i)) limit i offset m_tick s_tick w.
Proof.
  revert i offset w. induction n as [|n IH]; intros i offset w Hn Hi Hlimit.
  - now replace (Z.to_nat (limit - i)) with 0%nat by lia.
  - destruct (Z.to_nat (limit - i)) as [|k] eqn:Hk.
    + simpl. rewrite !bind_get.
      destruct (Z.ltb_spec i limit); [lia|].
      now rewrite andb_false_r.
    + simpl. rewrite !bind_get.
      destruct ((offset <=? rawlen (results w) - 16) && (i <? limit));
        [|reflexivity].
      rewrite !bind_matchData_at.
      destruct (success _); cbn [negb]; [|reflexivity].
      rewrite !bind_modify.
      assert (Hnext : uint16 (i + 1) = i + 1).
      { unfold uint16, wrap. apply Z.mod_small. lia. }
      rewrite Hnext, IH by lia. f_equal. lia.
Qed.

(** C9.  For a bit count that is not a multiple of 8,
    [decodePanasonicAC] returns false at once: no sample of [rawbuf] has
    been read and the capture record is as it was. *)
Theorem decodePanasonicAC_whole_bytes (r : decode_results)
                                      (nbits : Z) (strict : bool) :
  nbits mod 8 <> 0 ->
  run (decodePanasonicAC nbits strict) r
  = (false, {| results := r; reads := [] |}).
Proof.
  intros Hbits. unfold run, decodePanasonicAC.
  destruct (Z.eqb_spec (nbits mod 8) 0); [contradiction|reflexivity].
Qed.

End DecodePanasonicAC.

(** ** On the reference instance *)

Import Reference.

(** C10.  The capture of a freshly reset state has 440 samples, indices 0
    to 439, and passes the length check for 216 bits.  The strict decode
    succeeds, and the last sample it reads, for the message gap, is at
    index 440: [offset <= rawlen] lets the read at [offset = rawlen]
    through, where the command decoder asks for [offset < rawlen]. *)
Theorem decodePanasonicAC_reads_at_rawlen :
  let out := run (decodePanasonicAC 216 true) captureAC in
  rawlen captureAC = 440
  /\ 1 * (2 * 216 + kHeader + kFooter) - 1 <= rawlen captureAC
  /\ fst out = true
  /\ hd 0 (reads (snd out)) = rawlen captureAC
  /\ existsb (fun i => rawlen captureAC <=? i) (reads (snd out)) = true.
Proof.
  cbv zeta.
  split; [vm_compute; reflexivity|].
  split; [vm_compute; congruence|].
  split; [vm_compute; reflexivity|].
  split; vm_compute; reflexivity.
Qed.

(** The command decoder on the capture of the spec's example reads
    inside the capture only. *)
Lemma decodePanasonic_reads_inside :
  let out := run (decodePanasonic 48 true 0x4004) capture48 in
  fst out = true
  /\ forallb (fun i => i <? rawlen capture48) (reads (snd out)) = true.
Proof. vm_compute. split; reflexivity. Qed.

(** *** The results at concrete inputs *)

(** Closes a goal about concrete values by evaluating it. *)
Ltac evaluate :=
  vm_compute;
  repeat match goal with |- _ /\ _ => split end;
  first [ reflexivity | discriminate | lia
        | intros _; reflexivity | let H := fresh in intros H; discriminate H ].

Lemma encodePanasonic_decodes_witness :
  passes_stages capture48 kPanasonicBits (encodePanasonic 0x4004 1 2 3)
  /\ fst (run (decodePanasonic kPanasonicBits true 0x4004) capture48) = true
  /\ address (results (snd (run (decodePanasonic kPanasonicBits true 0x4004)
                                capture48))) = 0x4004
  /\ device_of (command (results
       (snd (run (decodePanasonic kPanasonicBits true 0x4004) capture48))))
     = 1.
Proof.
  assert (Hstages : passes_stages capture48 kPanasonicBits
                      (encodePanasonic 0x4004 1 2 3))
    by (constructor; evaluate).
  split; [exact Hstages|].
  destruct (encodePanasonic_decodes 0x4004 1 2 3) as (_ & _ & _ & Hdecode);
    [lia | lia | lia | lia |].
  destruct (Hdecode capture48 Hstages)
    as (Htrue & _ & Haddress & Hdevice & _).
  split; [exact Htrue|]. split; [exact Haddress|exact Hdevice].
Defined.

Lemma decodePanasonic_strictness_witness :
  passes_stages capture48 48 command48
  /\ fst (run (decodePanasonic 48 true 0x1234) capture48) = false
  /\ fst (run (decodePanasonic 48 false 0x1234) capture48) = true.
Proof.
  assert (Hstages : passes_stages capture48 48 command48)
    by (constructor; evaluate).
  split; [exact Hstages|].
  destruct (decodePanasonic_strictness capture48 48 command48 0x1234 Hstages)
    as [Hstrict Hlenient].
  split; [apply Hstrict; left; evaluate|exact Hlenient].
Defined.

Lemma decodePanasonic_failure_keeps_witness :
  fst (run (decodePanasonic 48 true 0x1234) capture48) = false
  /\ value (results (snd (run (decodePanasonic 48 true 0x1234) capture48)))
     = value capture48
  /\ bits (results (snd (run (decodePanasonic 48 true 0x1234) capture48)))
     = bits capture48.
Proof.
  assert (Hfalse : fst (run (decodePanasonic 48 true 0x1234) capture48)
                   = false) by evaluate.
  split; [exact Hfalse|].
  destruct (decodePanasonic_failure_keeps capture48 48 true 0x1234 Hfalse)
    as (Hvalue & _ & _ & _ & Hbits).
  split; [exact Hvalue|exact Hbits].
Defined.

Lemma getRaw_validChecksum_witness :
  2 <= kPanasonicAcStateLength
  /\ length (remote_state fresh) = Z.to_nat kPanasonicAcStateLength
  /\ validChecksum (fst (getRaw fresh)) kPanasonicAcStateLength = true.
Proof.
  split; [evaluate|]. split; [evaluate|].
  apply (getRaw_validChecksum fresh); evaluate.
Defined.

Lemma quiet_powerful_exclusive_witness :
  (21 < length (remote_state fresh))%nat
  /\ getQuiet (setQuiet true (setPowerful true fresh)) = true
  /\ getPowerful (setQuiet true (setPowerful true fresh)) = false
  /\ getPowerful (setPowerful true (setQuiet true fresh)) = true
  /\ getQuiet (setPowerful true (setQuiet true fresh)) = false.
Proof.
  assert (Hlen : (21 < length (remote_state fresh))%nat) by evaluate.
  split; [exact Hlen|].
  destruct (quiet_powerful_exclusive fresh) as [[Hq Hp] [Hp' Hq']];
    [evaluate | evaluate | evaluate | exact Hlen |].
  split; [exact Hq|]. split; [exact Hp|]. split; [exact Hp'|exact Hq'].
Defined.

Lemma setMode_restores_temp_witness :
  (14 < length (remote_state fresh))%nat
  /\ getTemp (setMode kPanasonicAcFan (setTemp 22 true fresh))
     = kPanasonicAcFanModeTemp
  /\ getTemp (setMode kPanasonicAcCool
                (setMode kPanasonicAcFan (setTemp 22 true fresh)))
     = _temp (setTemp 22 true fresh).
Proof.
  assert (Hlen : (14 < length (remote_state fresh))%nat) by evaluate.
  split; [exact Hlen|].
  destruct (setMode_restores_temp fresh 22 kPanasonicAcCool)
    as (_ & _ & Hfan & Hcool);
    [evaluate | evaluate | evaluate | evaluate
     | right; left; reflexivity | exact Hlen |].
  split; [exact Hfan|exact Hcool].
Defined.

Lemma setSwingH_remembered_witness :
  validSwingH kPanasonicAcSwingHLeft = true
  /\ getModel fresh = kPanasonicJke
  /\ remote_state (setSwingH kPanasonicAcSwingHLeft fresh)
     = remote_state fresh
  /\ getSwingHorizontal
       (setModel kPanasonicDke (setSwingH kPanasonicAcSwingHLeft fresh))
     = kPanasonicAcSwingHLeft.
Proof.
  assert (Hvalid : validSwingH kPanasonicAcSwingHLeft = true) by evaluate.
  assert (Hjke : getModel fresh = kPanasonicJke) by evaluate.
  split; [exact Hvalid|]. split; [exact Hjke|].
  destruct (setSwingH_remembered kPanasonicAcSwingHLeft fresh)
    as (Hbuf & _ & _ & Hswing);
    [exact Hvalid | left; exact Hjke | evaluate |].
  split; [exact Hbuf|exact Hswing].
Defined.

Lemma setModel_getModel_witness :
  (25 < length (remote_state fresh))%nat
  /\ getModel (setModel kPanasonicDke fresh) = kPanasonicDke
  /\ setModel kPanasonicUnknown fresh = fresh.
Proof.
  assert (Hlen : (25 < length (remote_state fresh))%nat) by evaluate.
  split; [exact Hlen|]. split.
  - apply (setModel_getModel kPanasonicDke fresh Hlen).
    simpl. tauto.
  - apply (setModel_getModel kPanasonicUnknown fresh Hlen).
    simpl. intuition discriminate.
Defined.

Lemma decodePanasonicAC_whole_bytes_witness :
  100 mod 8 <> 0
  /\ run (decodePanasonicAC 100 false) captureAC
     = (false, {| results := captureAC; reads := [] |}).
Proof.
  split; [evaluate|].
  apply (decodePanasonicAC_whole_bytes captureAC 100 false). evaluate.
Defined.

(** * Further results *)

(** ** Bit by bit *)

Lemma testbit_0x0F (n : Z) : 0 <= n -> Z.testbit 0x0F n = (n <? 4).
Proof.
  intros Hn. change 0x0F with (Z.ones 4).
  now rewrite Z.testbit_ones_nonneg by lia.
Qed.

Lemma testbit_0xF0 (n : Z) :
  0 <= n -> Z.testbit 0xF0 n = (4 <=? n) && (n <? 8).
Proof.
  intros Hn. change 0xF0 with (Z.shiftl (Z.ones 4) 4).
  rewrite Z.shiftl_spec by lia.
  destruct (Z.leb_spec 4 n).
  - rewrite Z.testbit_ones_nonneg by lia. simpl.
    destruct (Z.ltb_spec (n - 4) 4), (Z.ltb_spec n 8); lia || reflexivity.
  - now rewrite Z.testbit_neg_r by lia.
Qed.

(** Two numbers are equal when their bits are: [bitwise] states the bit
    at a position [n], and [cases_bits] settles it by the place of [n]
    among the widths in sight and the values of the bits left. *)
Ltac bitwise :=
  apply Z.bits_inj'; let n := fresh "n" in let Hn := fresh "Hn" in
  intros n Hn;
  repeat (rewrite ?Z.land_spec, ?Z.lor_spec, ?Z.lxor_spec, ?Z.lnot_spec,
                  ?Z.shiftr_spec, ?Z.shiftl_spec, ?testbit_uint8,
                  ?testbit_0x0F, ?testbit_0xF0, ?Z.bits_0,
                  ?Z.add_simpl_r, ?Z.sub_add by lia).

Ltac small_bits :=
  repeat match goal with
  | H : 0 <= ?x < 2 ^ ?k |- context [Z.testbit ?x ?m] =>
      first [ rewrite (testbit_small x k m) by lia
            | rewrite (Z.testbit_neg_r x m) by lia ]
  | |- context [Z.testbit ?x ?m] => rewrite (Z.testbit_neg_r x m) by lia
  end.

Ltac cases_bits :=
  repeat match goal with
  | |- context [?a <? ?b] => destruct (Z.ltb_spec a b)
  | |- context [?a <=? ?b] => destruct (Z.leb_spec a b)
  end; try lia; small_bits;
  repeat match goal with
  | |- context [Z.testbit ?x ?m] => destruct (Z.testbit x m)
  end; try reflexivity; try lia.

Lemma high_nibble_lor (x p : Z) :
  0 <= x < 2 ^ 8 -> 0 <= p < 2 ^ 4 ->
  Z.shiftr (uint8 (Z.lor x p)) 4 = Z.shiftr x 4.
Proof. intros Hx Hp. bitwise. cases_bits. Qed.

Lemma high_nibble_clear (x p : Z) :
  0 <= x < 2 ^ 8 -> 0 <= p < 2 ^ 4 ->
  Z.shiftr (uint8 (Z.land x (Z.lnot p))) 4 = Z.shiftr x 4.
Proof. intros Hx Hp. bitwise. cases_bits. Qed.

Lemma high_nibble_0xF0 (x : Z) :
  0 <= x < 2 ^ 8 -> Z.shiftr (uint8 (Z.land x 0xF0)) 4 = Z.shiftr x 4.
Proof. intros Hx. bitwise. cases_bits. Qed.

Lemma high_nibble_0xF0_lor (x e : Z) :
  0 <= x < 2 ^ 8 -> 0 <= e < 2 ^ 4 ->
  Z.shiftr (uint8 (Z.lor (uint8 (Z.land x 0xF0)) e)) 4 = Z.shiftr x 4.
Proof. intros Hx He. bitwise. cases_bits. Qed.

Lemma low_nibble_0xF0_lor (x e : Z) :
  0 <= e < 2 ^ 4 ->
  Z.land (uint8 (Z.lor (uint8 (Z.land x 0xF0)) e)) 0x0F = e.
Proof. intros He. bitwise. cases_bits. Qed.

Lemma high_nibble_written (x m : Z) :
  0 <= m < 2 ^ 4 ->
  Z.shiftr (uint8 (Z.lor (uint8 (Z.land x 0x0F)) (Z.shiftl m 4))) 4 = m.
Proof. intros Hm. bitwise. cases_bits. Qed.

Lemma low_nibble_kept (x m : Z) :
  Z.land (uint8 (Z.lor (uint8 (Z.land x 0x0F)) (Z.shiftl m 4))) 0x0F
  = Z.land x 0x0F.
Proof. bitwise. cases_bits. Qed.

Lemma fan_nibble_written (x m : Z) :
  0 <= m < 2 ^ 4 ->
  Z.shiftr (uint8 (Z.lor (Z.land x 0x0F) (Z.shiftl m 4))) 4 = m.
Proof. intros Hm. bitwise. cases_bits. Qed.

Lemma fan_nibble_beside (x m : Z) :
  Z.land (uint8 (Z.lor (Z.land x 0x0F) (Z.shiftl m 4))) 0x0F
  = Z.land x 0x0F.
Proof. bitwise. cases_bits. Qed.

Lemma mask_set (x p : Z) :
  0 <= p < 2 ^ 8 -> Z.land (uint8 (Z.lor x p)) p = p.
Proof. intros Hp. bitwise. cases_bits. Qed.

Lemma mask_cleared (x p : Z) : Z.land (uint8 (Z.land x (Z.lnot p))) p = 0.
Proof. bitwise. cases_bits. Qed.

Lemma mask_beside (x p q : Z) :
  0 <= p < 2 ^ 8 -> Z.land q p = 0 ->
  Z.land (uint8 (Z.land x (Z.lnot q))) p = Z.land x p.
Proof.
  intros Hp Hdisjoint.
  assert (Hno : forall n, Z.testbit q n && Z.testbit p n = false).
  { intros n. now rewrite <- Z.land_spec, Hdisjoint, Z.bits_0. }
  bitwise. specialize (Hno n). cases_bits; simpl in Hno; congruence.
Qed.

Lemma land_low_nibble (x p : Z) :
  0 <= p < 2 ^ 4 -> Z.land x p = Z.land (Z.land x 0x0F) p.
Proof. intros Hp. bitwise. cases_bits. Qed.

(** ** Power, mode and temperature *)

Section PowerMode.
Context `{H : ir_Panasonic_h} `{H' : ir_Panasonic_h_more}.

(** X1.  [getPower()] after [setPower(b)] is [b], for a power mask that
    is a non-zero byte. *)
Theorem setPower_getPower (b : bool) (s : IRPanasonicAc) :
  0 < kPanasonicAcPower < 256 ->
  (13 < length (remote_state s))%nat ->
  getPower (setPower b s) = b.
Proof.
  intros HP Hlen. unfold getPower, setPower, on, off.
  destruct b; buffer.
  - rewrite mask_set by (change (2 ^ 8) with 256; lia). apply Z.eqb_refl.
  - rewrite mask_cleared. apply Z.eqb_neq. lia.
Qed.

(** X2.  [setPower] touches byte 13 only, and with a power mask inside
    the low nibble it leaves the mode as it was. *)
Theorem setPower_frame (b : bool) (s : IRPanasonicAc) :
  0 <= kPanasonicAcPower < 16 ->
  0 <= peek 13 s < 256 ->
  getMode (setPower b s) = getMode s
  /\ (forall i, i <> 13%nat -> peek i (setPower b s) = peek i s)
  /\ _temp (setPower b s) = _temp s
  /\ _swingh (setPower b s) = _swingh s.
Proof.
  intros HP Hbyte. change 16 with (2 ^ 4) in HP.
  change 256 with (2 ^ 8) in Hbyte.
  split; [|split; [|split; now destruct b]].
  - unfold getMode, setPower, on, off.
    destruct (Nat.lt_ge_cases 13 (length (remote_state s))) as [Hlen|Hlen].
    + destruct b; buffer;
        [now apply high_nibble_lor|now apply high_nibble_clear].
    + destruct b; unfold peek, poke; cbn [remote_state];
        now rewrite list_insert_ge by lia.
  - intros i Hi. destruct b; unfold setPower, on, off;
      now rewrite peek_poke_ne by congruence.
Qed.

(** X3.  [getMode()] after [setMode(desired)] is [desired] when it is one
    of the five modes and auto otherwise, for mode constants that fit the
    nibble. *)
Theorem setMode_getMode (desired : Z) (s : IRPanasonicAc) :
  0 <= kPanasonicAcAuto < 16 -> 0 <= kPanasonicAcCool < 16 ->
  0 <= kPanasonicAcHeat < 16 -> 0 <= kPanasonicAcDry < 16 ->
  0 <= kPanasonicAcFan < 16 ->
  (13 < length (remote_state s))%nat ->
  let known := (desired =? kPanasonicAcFan) || (desired =? kPanasonicAcAuto)
               || (desired =? kPanasonicAcCool)
               || (desired =? kPanasonicAcHeat)
               || (desired =? kPanasonicAcDry) in
  getMode (setMode desired s) = if known then desired else kPanasonicAcAuto.
Proof.
  intros HA HC HH HD HF Hlen known. subst known.
  unfold getMode, setMode.
  destruct (Z.eqb_spec desired kPanasonicAcFan) as [->|_];
    [|destruct (Z.eqb_spec desired kPanasonicAcAuto) as [->|_];
      [|destruct (Z.eqb_spec desired kPanasonicAcCool) as [->|_];
        [|destruct (Z.eqb_spec desired kPanasonicAcHeat) as [->|_];
          [|destruct (Z.eqb_spec desired kPanasonicAcDry) as [->|_]]]]];
    cbn [orb]; cbv beta iota zeta;
    (rewrite !peek_poke_eq
       by (rewrite ?length_poke, ?length_setTemp; exact Hlen));
    apply high_nibble_written; change (2 ^ 4) with 16; assumption.
Qed.

(** X4.  [setMode] changes the mode nibble and the temperature byte and
    nothing else: the low nibble of byte 13 and every byte but 13 and 14
    are as before, so with a power mask inside the low nibble the power
    flag is kept, and so is the cached swing direction. *)
Theorem setMode_frame (desired : Z) (s : IRPanasonicAc) :
  0 <= kPanasonicAcPower < 16 ->
  (13 < length (remote_state s))%nat ->
  Z.land (peek 13 (setMode desired s)) 0x0F = Z.land (peek 13 s) 0x0F
  /\ getPower (setMode desired s) = getPower s
  /\ (forall i, i <> 13%nat -> i <> 14%nat ->
                peek i (setMode desired s) = peek i s)
  /\ _swingh (setMode desired s) = _swingh s.
Proof.
  intros HP Hlen. change 16 with (2 ^ 4) in HP.
  assert (H13 : forall celsius remember,
             peek 13 (setTemp celsius remember s) = peek 13 s).
  { intros celsius remember. unfold setTemp.
    destruct remember; now buffer. }
  assert (Hnibble : Z.land (peek 13 (setMode desired s)) 0x0F
                    = Z.land (peek 13 s) 0x0F).
  { unfold setMode.
    destruct (desired =? kPanasonicAcFan);
      [|destruct ((desired =? kPanasonicAcAuto) || _ || _ || _)];
      cbv beta iota zeta;
      (rewrite peek_poke_eq
         by (rewrite ?length_poke, ?length_setTemp; exact Hlen));
      (rewrite peek_poke_eq by (rewrite ?length_setTemp; exact Hlen));
      rewrite ?H13; apply low_nibble_kept. }
  split; [exact Hnibble|]. split; [|split].
  - unfold getPower.
    now rewrite (land_low_nibble (peek 13 (setMode desired s))),
                (land_low_nibble (peek 13 s)), Hnibble by exact HP.
  - intros i Hi13 Hi14. unfold setMode.
    destruct (desired =? kPanasonicAcFan);
      [|destruct ((desired =? kPanasonicAcAuto) || _ || _ || _)];
      cbv beta iota zeta; rewrite !peek_poke_ne by congruence;
      try reflexivity; unfold setTemp; cbv zeta;
      rewrite ?peek_set_temp; now rewrite peek_poke_ne by congruence.
  - unfold setMode.
    destruct (desired =? kPanasonicAcFan);
      [|destruct ((desired =? kPanasonicAcAuto) || _ || _ || _)];
      reflexivity.
Qed.

(** X5.  [getTemp()] after [setTemp] lies within the limits, and is the
    temperature asked for when that lies within them; the limits are
    bytes below 128 in order. *)
Theorem setTemp_getTemp (celsius : Z) (remember : bool) (s : IRPanasonicAc) :
  0 <= kPanasonicAcMinTemp <= kPanasonicAcMaxTemp ->
  kPanasonicAcMaxTemp < 128 ->
  (14 < length (remote_state s))%nat ->
  kPanasonicAcMinTemp <= getTemp (setTemp celsius remember s)
                      <= kPanasonicAcMaxTemp
  /\ (kPanasonicAcMinTemp <= celsius <= kPanasonicAcMaxTemp ->
      getTemp (setTemp celsius remember s) = celsius).
Proof.
  intros Hlimits Hmax Hlen. unfold getTemp.
  rewrite peek_setTemp by exact Hlen.
  rewrite halve_doubled by (unfold clamp; lia).
  unfold clamp. lia.
Qed.

End PowerMode.

(** ** Fan speed and vertical swing *)

Section FanSwing.
Context `{H : ir_Panasonic_h} `{H' : ir_Panasonic_h_more}.

(** The elevation that [setSwingV] writes for a request. *)
Definition elevation_of (desired_elevation : Z) : Z :=
  if negb (desired_elevation =? kPanasonicAcSwingVAuto)
  then Z.min (Z.max desired_elevation kPanasonicAcSwingVUp)
             kPanasonicAcSwingVDown
  else desired_elevation.

Lemma elevation_nibble (desired_elevation : Z) :
  0 <= kPanasonicAcSwingVAuto < 16 ->
  0 <= kPanasonicAcSwingVUp < 16 ->
  0 <= kPanasonicAcSwingVDown < 16 ->
  0 <= elevation_of desired_elevation < 2 ^ 4.
Proof.
  intros HA HU HD. unfold elevation_of. change (2 ^ 4) with 16.
  destruct (Z.eqb_spec desired_elevation kPanasonicAcSwingVAuto);
    cbn [negb]; lia.
Qed.

Lemma peek_setSwingV (desired_elevation : Z) (s : IRPanasonicAc) :
  (16 < length (remote_state s))%nat ->
  peek 16 (setSwingV desired_elevation s)
  = uint8 (Z.lor (uint8 (Z.land (peek 16 s) 0xF0))
                 (elevation_of desired_elevation)).
Proof. intros Hlen. unfold setSwingV. cbv zeta. now buffer. Qed.

(** X6.  [setFan] of a speed up to the maximum, or of the auto speed, is
    read back by [getFan()]; any other speed leaves the state as it is.
    Speed and offset together fit the nibble. *)
Theorem setFan_getFan (speed : Z) (s : IRPanasonicAc) :
  0 <= speed -> 0 <= kPanasonicAcFanOffset ->
  (16 < length (remote_state s))%nat ->
  (speed <= kPanasonicAcFanMax \/ speed = kPanasonicAcFanAuto ->
   speed + kPanasonicAcFanOffset < 16 ->
   getFan (setFan speed s) = speed)
  /\ (kPanasonicAcFanMax < speed -> speed <> kPanasonicAcFanAuto ->
      setFan speed s = s).
Proof.
  intros Hspeed Hoffset Hlen. unfold setFan. split.
  - intros Hvalid Hfits.
    replace ((speed <=? kPanasonicAcFanMax) || (speed =? kPanasonicAcFanAuto))
      with true
      by (symmetry; apply orb_true_iff; rewrite Z.leb_le, Z.eqb_eq; tauto).
    unfold getFan. buffer.
    rewrite fan_nibble_written by (change (2 ^ 4) with 16; lia).
    rewrite uint8_small by lia. lia.
  - intros Hmax Hauto.
    destruct (Z.leb_spec speed kPanasonicAcFanMax); [lia|].
    destruct (Z.eqb_spec speed kPanasonicAcFanAuto); [lia|reflexivity].
Qed.

(** X7.  [getSwingVertical()] after [setSwingV] is the auto value when
    that was asked for, and otherwise lies between up and down and is the
    elevation asked for when that lies between them. *)
Theorem setSwingV_getSwingVertical (desired_elevation : Z)
                                   (s : IRPanasonicAc) :
  0 <= kPanasonicAcSwingVAuto < 16 ->
  0 <= kPanasonicAcSwingVUp <= kPanasonicAcSwingVDown ->
  kPanasonicAcSwingVDown < 16 ->
  (16 < length (remote_state s))%nat ->
  let elevation := getSwingVertical (setSwingV desired_elevation s) in
  (desired_elevation = kPanasonicAcSwingVAuto ->
   elevation = kPanasonicAcSwingVAuto)
  /\ (desired_elevation <> kPanasonicAcSwingVAuto ->
      kPanasonicAcSwingVUp <= elevation <= kPanasonicAcSwingVDown
      /\ (kPanasonicAcSwingVUp <= desired_elevation
          <= kPanasonicAcSwingVDown ->
          elevation = desired_elevation)).
Proof.
  intros HA HU HD Hlen elevation. subst elevation.
  unfold getSwingVertical. rewrite peek_setSwingV by exact Hlen.
  rewrite low_nibble_0xF0_lor by (apply elevation_nibble; lia).
  unfold elevation_of.
  destruct (Z.eqb_spec desired_elevation kPanasonicAcSwingVAuto);
    cbn [negb]; lia.
Qed.

(** X8.  The two nibbles of byte 16 do not disturb each other: [setFan]
    keeps the vertical swing, and [setSwingV] keeps the fan speed when
    the elevations fit their nibble. *)
Theorem fan_swing_independent (speed desired_elevation : Z)
                              (s : IRPanasonicAc) :
  0 <= kPanasonicAcSwingVAuto < 16 ->
  0 <= kPanasonicAcSwingVUp < 16 ->
  0 <= kPanasonicAcSwingVDown < 16 ->
  0 <= peek 16 s < 256 ->
  (16 < length (remote_state s))%nat ->
  getSwingVertical (setFan speed s) = getSwingVertical s
  /\ getFan (setSwingV desired_elevation s) = getFan s.
Proof.
  intros HA HU HD Hbyte Hlen. split.
  - unfold getSwingVertical, setFan.
    destruct ((speed <=? kPanasonicAcFanMax) || _); [|reflexivity].
    buffer. apply fan_nibble_beside.
  - unfold getFan. rewrite peek_setSwingV by exact Hlen.
    rewrite high_nibble_0xF0_lor;
      [reflexivity|exact Hbyte|now apply elevation_nibble].
Qed.

End FanSwing.

(** ** Switching a flag off *)

Section FlagsOff.
Context `{H : ir_Panasonic_h}.

(** X9.  [setQuiet(false)] clears Quiet and leaves Powerful as it was,
    and [setPowerful(false)] clears Powerful and leaves Quiet as it was,
    for masks that are bytes without a common bit. *)
Theorem flag_off_keeps_other (s : IRPanasonicAc) :
  0 <= kPanasonicAcQuiet < 256 ->
  0 <= kPanasonicAcPowerful < 256 ->
  Z.land kPanasonicAcQuiet kPanasonicAcPowerful = 0 ->
  (21 < length (remote_state s))%nat ->
  getQuiet (setQuiet false s) = false
  /\ getPowerful (setQuiet false s) = getPowerful s
  /\ getPowerful (setPowerful false s) = false
  /\ getQuiet (setPowerful false s) = getQuiet s.
Proof.
  intros HQ HP Hdisjoint Hlen.
  change 256 with (2 ^ 8) in HQ, HP.
  rewrite setQuiet_eq, setPowerful_eq. unfold getQuiet, getPowerful.
  buffer. rewrite !mask_cleared.
  rewrite (mask_beside _ kPanasonicAcPowerful kPanasonicAcQuiet)
    by assumption.
  rewrite (mask_beside _ kPanasonicAcQuiet kPanasonicAcPowerful)
    by (try assumption; now rewrite Z.land_comm).
  repeat split.
Qed.

End FlagsOff.

(** ** More on variants and horizontal swing *)

Lemma state_ext (s1 s2 : IRPanasonicAc) :
  length (remote_state s1) = length (remote_state s2) ->
  (forall i, peek i s1 = peek i s2) ->
  _temp s1 = _temp s2 -> _swingh s1 = _swingh s2 -> s1 = s2.
Proof.
  destruct s1 as [l1 t1 h1], s2 as [l2 t2 h2]. unfold peek, rd. simpl.
  intros Hlen Hpeek -> ->. f_equal.
  apply list_eq. intros i. specialize (Hpeek i).
  destruct (l1 !! i) as [a|] eqn:H1, (l2 !! i) as [b|] eqn:H2;
    simpl in Hpeek; try congruence.
  - apply lookup_lt_Some in H1. apply lookup_ge_None in H2. lia.
  - apply lookup_ge_None in H1. apply lookup_lt_Some in H2. lia.
Qed.

(** As [buffer], for indices that are not literals. *)
Ltac buffer_at :=
  repeat first
    [ rewrite peek_set_swingh
    | rewrite peek_set_temp
    | rewrite peek_poke_ne by (first [discriminate | congruence])
    | rewrite peek_poke_eq
        by (repeat first [ rewrite length_poke
                         | progress cbn [remote_state set_swingh set_temp] ];
            lia) ].

Section MoreVariants.
Context `{H : ir_Panasonic_h} `{H' : ir_Panasonic_h_more}.

Lemma setSwingH_other_bytes (v : Z) (s : IRPanasonicAc) (i : nat) :
  i <> 17%nat -> peek i (setSwingH v s) = peek i s.
Proof.
  intros Hi. unfold setSwingH. destruct (validSwingH v); [|reflexivity].
  cbn [negb]. cbv zeta. destruct (getModel _); now buffer_at.
Qed.

Lemma setSwingH_temp (v : Z) (s : IRPanasonicAc) :
  _temp (setSwingH v s) = _temp s.
Proof.
  unfold setSwingH. destruct (validSwingH v); [|reflexivity].
  cbn [negb]. cbv zeta. now destruct (getModel _).
Qed.

Lemma setSwingH_cache (s : IRPanasonicAc) :
  _swingh (setSwingH (_swingh s) s) = _swingh s.
Proof.
  unfold setSwingH. destruct (validSwingH _); [|reflexivity].
  cbn [negb]. cbv zeta. now destruct (getModel _).
Qed.

Lemma setSwingH_cache' (v : Z) (s : IRPanasonicAc) :
  v = _swingh s -> _swingh (setSwingH v s) = _swingh s.
Proof. intros ->. apply setSwingH_cache. Qed.

Lemma length_setSwingH (v : Z) (s : IRPanasonicAc) :
  length (remote_state (setSwingH v s)) = length (remote_state s).
Proof.
  unfold setSwingH. destruct (validSwingH v); [|reflexivity].
  cbn [negb]. cbv zeta.
  destruct (getModel _); rewrite ?length_poke; reflexivity.
Qed.

Lemma length_setModel (model : panasonic_ac_remote_model_t)
                      (s : IRPanasonicAc) :
  length (remote_state (setModel model s)) = length (remote_state s).
Proof.
  destruct model; unfold setModel; cbv zeta;
    rewrite ?length_setSwingH, ?length_poke; reflexivity.
Qed.

Lemma temp_setModel (model : panasonic_ac_remote_model_t)
                    (s : IRPanasonicAc) :
  _temp (setModel model s) = _temp s.
Proof.
  destruct model; unfold setModel; cbv zeta;
    rewrite ?setSwingH_temp; reflexivity.
Qed.

Lemma swingh_setModel (model : panasonic_ac_remote_model_t)
                      (s : IRPanasonicAc) :
  _swingh (setModel model s) = _swingh s.
Proof.
  destruct model; unfold setModel; cbv zeta; try reflexivity.
  apply (setSwingH_cache
           (poke 25 6 (poke 23 1 (poke 25 0 (poke 23 129 (poke 17 0
              (poke 13 (uint8 (Z.land (peek 13 s) 240)) s))))))).
Qed.

(** X10.  [setModel] changes bytes 13, 17, 23 and 25 at most: every
    other byte, the mode in the high nibble of byte 13 and the two cached
    values are as before. *)
Theorem setModel_frame (model : panasonic_ac_remote_model_t)
                       (s : IRPanasonicAc) :
  0 <= peek 13 s < 256 ->
  (25 < length (remote_state s))%nat ->
  (forall i, i <> 13%nat -> i <> 17%nat -> i <> 23%nat -> i <> 25%nat ->
             peek i (setModel model s) = peek i s)
  /\ getMode (setModel model s) = getMode s
  /\ _temp (setModel model s) = _temp s
  /\ _swingh (setModel model s) = _swingh s.
Proof.
  intros Hbyte Hlen. change 256 with (2 ^ 8) in Hbyte.
  split; [|split; [|split]].
  - intros i H13 H17 H23 H25. destruct model; unfold setModel; cbv zeta;
      rewrite ?setSwingH_other_bytes by exact H17; now buffer_at.
  - unfold getMode. destruct model; unfold setModel; cbv zeta;
      rewrite ?setSwingH_other_bytes by discriminate; buffer;
      try reflexivity; try now apply high_nibble_0xF0.
    now apply (high_nibble_0xF0_lor _ 2).
  - apply temp_setModel.
  - apply swingh_setModel.
Qed.

(** X11.  [setModel] of a known variant leaves the power flag off: it
    clears the low nibble of byte 13, where the power mask lies, and puts
    back into it the bit 0x02 of LKE alone. *)
Theorem setModel_power_off (model : panasonic_ac_remote_model_t)
                           (s : IRPanasonicAc) :
  0 < kPanasonicAcPower < 16 ->
  Z.land kPanasonicAcPower 0x02 = 0 ->
  model <> kPanasonicUnknown ->
  (25 < length (remote_state s))%nat ->
  getPower (setModel model s) = false.
Proof.
  intros HP Hlke Hknown Hlen. change 16 with (2 ^ 4) in HP.
  unfold getPower. rewrite land_low_nibble by lia.
  assert (Hnibble : Z.land (peek 13 (setModel model s)) 0x0F = 0
                    \/ Z.land (peek 13 (setModel model s)) 0x0F = 0x02).
  { destruct model; try contradiction; unfold setModel; cbv zeta;
      rewrite ?setSwingH_other_bytes by discriminate; buffer;
      [right; apply low_nibble_lke | left | left | left];
      apply low_nibble_cleared. }
  destruct Hnibble as [-> | ->].
  - rewrite Z.land_0_l. apply Z.eqb_neq. lia.
  - rewrite Z.land_comm, Hlke. apply Z.eqb_neq. lia.
Qed.

(** X12.  [setModel] twice is [setModel] once. *)
Theorem setModel_idempotent (model : panasonic_ac_remote_model_t)
                            (s : IRPanasonicAc) :
  (25 < length (remote_state s))%nat ->
  setModel model (setModel model s) = setModel model s.
Proof.
  intros Hlen.
  assert (Hclear : forall x, uint8 (Z.land (uint8 (Z.land x 0xF0)) 0xF0)
                             = uint8 (Z.land x 0xF0))
    by (intros x; bitwise; cases_bits).
  assert (Hclear2 : forall x,
             uint8 (Z.land (uint8 (Z.lor (uint8 (Z.land x 0xF0)) 2)) 0xF0)
             = uint8 (Z.land x 0xF0)).
  { intros x. rewrite !uint8_land, <- !Z.land_assoc.
    change (Z.land 255 (Z.land 240 255)) with 240.
    rewrite Z.land_lor_distr_l, <- !Z.land_assoc.
    change (Z.land 255 240) with 240. change (Z.land 240 240) with 240.
    change (Z.land 2 240) with 0. now rewrite Z.lor_0_r. }
  apply state_ext.
  - now rewrite !length_setModel.
  - intros i. destruct model; [reflexivity| | | |].
    + (* LKE *)
      unfold setModel; cbv zeta.
      destruct (Nat.eq_dec i 13) as [->|H13]; [buffer; now rewrite Hclear2|].
      destruct (Nat.eq_dec i 17) as [->|H17]; [now buffer|].
      destruct (Nat.eq_dec i 23) as [->|H23]; [now buffer|].
      destruct (Nat.eq_dec i 25) as [->|H25]; [now buffer|].
      now buffer_at.
    + (* NKE *)
      unfold setModel; cbv zeta.
      destruct (Nat.eq_dec i 13) as [->|H13]; [buffer; now rewrite Hclear|].
      destruct (Nat.eq_dec i 17) as [->|H17]; [now buffer|].
      destruct (Nat.eq_dec i 23) as [->|H23]; [now buffer|].
      destruct (Nat.eq_dec i 25) as [->|H25]; [now buffer|].
      now buffer_at.
    + (* DKE *)
      assert (Hlen' : (25 < length (remote_state
                                     (setModel kPanasonicDke s)))%nat)
        by now rewrite length_setModel.
      rewrite (setModel_dke (setModel kPanasonicDke s)) by exact Hlen'.
      replace (_swingh (setModel kPanasonicDke s)) with (_swingh s)
        by (symmetry; apply (setSwingH_cache (dke_bytes s))).
      rewrite (setModel_dke s) by exact Hlen.
      unfold dke_bytes.
      destruct (validSwingH (_swingh s)); cbv beta iota;
        (destruct (Nat.eq_dec i 13) as [->|H13];
           [buffer_at; now rewrite Hclear|]);
        (destruct (Nat.eq_dec i 17) as [->|H17]; [now buffer_at|]);
        (destruct (Nat.eq_dec i 23) as [->|H23]; [now buffer_at|]);
        (destruct (Nat.eq_dec i 25) as [->|H25]; [now buffer_at|]);
        now buffer_at.
    + (* JKE *)
      unfold setModel; cbv zeta.
      destruct (Nat.eq_dec i 13) as [->|H13]; [buffer; now rewrite Hclear|].
      destruct (Nat.eq_dec i 17) as [->|H17]; [now buffer|].
      destruct (Nat.eq_dec i 23) as [->|H23]; [now buffer|].
      destruct (Nat.eq_dec i 25) as [->|H25]; [now buffer|].
      now buffer_at.
  - now rewrite !temp_setModel.
  - now rewrite !swingh_setModel.
Qed.

End MoreVariants.

Section SwingH.
Context `{H : ir_Panasonic_h}.

(** X13.  What [setSwingH] writes: a direction outside the six leaves
    the state as it is; a valid one is cached, goes into byte 17 as it is
    on DKE and as the middle direction on NKE and LKE, and no other byte
    changes on any variant. *)
Theorem setSwingH_written (v : Z) (s : IRPanasonicAc) :
  (17 < length (remote_state s))%nat ->
  (validSwingH v = false -> setSwingH v s = s)
  /\ (validSwingH v = true ->
      _swingh (setSwingH v s) = v
      /\ (getModel s = kPanasonicDke ->
          getSwingHorizontal (setSwingH v s) = v)
      /\ (getModel s = kPanasonicNke \/ getModel s = kPanasonicLke ->
          getSwingHorizontal (setSwingH v s) = kPanasonicAcSwingHMiddle))
  /\ (forall i, i <> 17%nat -> peek i (setSwingH v s) = peek i s).
Proof.
  intros Hlen. split; [|split].
  - intros Hv. unfold setSwingH. now rewrite Hv.
  - intros Hv. unfold setSwingH, getSwingHorizontal. rewrite Hv.
    cbn [negb]. cbv zeta.
    replace (getModel (set_swingh v s)) with (getModel s) by reflexivity.
    split; [now destruct (getModel s)|]. split.
    + intros ->. now buffer_at.
    + intros [-> | ->]; now buffer_at.
  - intros i Hi. unfold setSwingH. destruct (validSwingH v); [|reflexivity].
    cbn [negb]. cbv zeta. destruct (getModel _); now buffer_at.
Qed.

Lemma getModel_byte17 (s : IRPanasonicAc) :
  getModel s = kPanasonicLke \/ getModel s = kPanasonicNke ->
  peek 17 s = 0x06.
Proof.
  unfold getModel. destruct (Z.eqb_spec (peek 17 s) 6) as [|_]; [easy|].
  cbn [andb].
  destruct (peek 17 s =? 0), (negb _), (peek 23 s =? 1), (peek 25 s =? 6);
    intros [|]; discriminate.
Qed.

(** X14.  [setSwingH] does not change what [getModel()] answers, when
    the middle direction is the 0x06 that marks NKE and LKE and a DKE
    state does not carry the low nibble 0x02 of LKE in byte 13. *)
Theorem setSwingH_keeps_model (v : Z) (s : IRPanasonicAc) :
  kPanasonicAcSwingHMiddle = 0x06 ->
  (getModel s = kPanasonicDke -> Z.land (peek 13 s) 0x0F <> 0x02) ->
  (17 < length (remote_state s))%nat ->
  getModel (setSwingH v s) = getModel s.
Proof.
  intros Hmiddle Hnibble Hlen. unfold setSwingH.
  destruct (validSwingH v); [|reflexivity]. cbn [negb]. cbv zeta.
  replace (getModel (set_swingh v s)) with (getModel s) by reflexivity.
  destruct (getModel s) eqn:Hmodel; try exact Hmodel.
  - (* LKE: byte 17 is 0x06 already *)
    rewrite <- Hmodel. unfold getModel. buffer_at.
    now rewrite Hmiddle, (getModel_byte17 s) by (left; exact Hmodel).
  - (* NKE: byte 17 is 0x06 already *)
    rewrite <- Hmodel. unfold getModel. buffer_at.
    now rewrite Hmiddle, (getModel_byte17 s) by (right; exact Hmodel).
  - (* DKE: bytes 13, 23 and 25 decide *)
    specialize (Hnibble eq_refl). unfold getModel in *. buffer_at.
    destruct (Z.eqb_spec (Z.land (peek 13 s) 15) 2) as [|_];
      [contradiction|].
    rewrite !andb_false_r in *.
    destruct ((peek 17 s =? 0) && _) eqn:Hjke; [discriminate|].
    destruct ((peek 23 s =? 1) && (peek 25 s =? 6)) eqn:Hdke.
    + apply andb_true_iff in Hdke as [H23 _]. apply Z.eqb_eq in H23.
      rewrite H23. cbn [Z.land negb Z.eqb]. now rewrite andb_false_r.
    + destruct (peek 17 s =? 6); discriminate.
Qed.

End SwingH.

(** ** More on the checksum *)

Lemma total_app (a b : list Z) : total (a ++ b) = total a + total b.
Proof. unfold total. induction a as [|x a IH]; simpl; lia. Qed.

Lemma total_insert (bytes : list Z) (i : nat) (v : Z) :
  (i < length bytes)%nat ->
  total (<[i := v]> bytes) = total bytes - rd bytes i + v.
Proof.
  revert i. induction bytes as [|b bytes IH]; intros i Hi; simpl in Hi;
    [lia|].
  destruct i as [|i]; unfold total, rd in *; simpl.
  - lia.
  - specialize (IH i ltac:(lia)). simpl in IH. lia.
Qed.

Section MoreChecksum.
Context `{H : ir_Panasonic_h}.

(** X15.  [getRaw()] a second time returns the same buffer and leaves
    the same state. *)
Theorem getRaw_idempotent (s : IRPanasonicAc) :
  2 <= kPanasonicAcStateLength ->
  length (remote_state s) = Z.to_nat kPanasonicAcStateLength ->
  getRaw (snd (getRaw s)) = getRaw s.
Proof.
  intros HL Hlen. unfold getRaw. cbn [snd].
  assert (Hfix : fixChecksum kPanasonicAcStateLength
                   (fixChecksum kPanasonicAcStateLength s)
                 = fixChecksum kPanasonicAcStateLength s).
  { unfold fixChecksum, calcChecksum, sumBytes, poke.
    cbn [remote_state _temp _swingh].
    rewrite take_insert_ge by lia. now rewrite list_insert_insert_eq. }
  now rewrite Hfix.
Qed.

(** X16.  A buffer that passes [validChecksum] fails it after any one of
    its bytes is replaced by a different byte. *)
Theorem validChecksum_detects_change (state : list Z) (length_ : Z)
                                     (i : nat) (v : Z) :
  validChecksum state length_ = true ->
  length state = Z.to_nat length_ ->
  (i < length state)%nat ->
  0 <= rd state i < 256 -> 0 <= v < 256 -> v <> rd state i ->
  validChecksum (<[i := v]> state) length_ = false.
Proof.
  intros Hvalid Hlen Hi Hold Hv Hne. unfold validChecksum in *.
  destruct (Z.ltb_spec length_ 2); [discriminate|].
  apply Z.eqb_eq in Hvalid. apply Z.eqb_neq.
  rewrite sumBytes_total in *.
  destruct (Nat.eq_dec i (Z.to_nat (length_ - 1))) as [->|Hlast].
  - rewrite rd_insert_eq by lia. rewrite take_insert_ge by lia.
    rewrite <- Hvalid. exact Hne.
  - rewrite rd_insert_ne by exact Hlast.
    rewrite take_insert_lt by lia.
    rewrite total_insert by (rewrite length_take; lia).
    assert (Hrd : rd (take (Z.to_nat (length_ - 1)) state) i = rd state i).
    { unfold rd. now rewrite lookup_take_lt by lia. }
    rewrite Hrd, Hvalid. intros Heq. apply Hne.
    revert Heq. generalize (total (take (Z.to_nat (length_ - 1)) state)).
    intros t Heq. Z.div_mod_to_equations. lia.
Qed.

End MoreChecksum.

(** ** Raw state in and out *)

Lemma list_ext_rd (a b : list Z) :
  length a = length b -> (forall i, rd a i = rd b i) -> a = b.
Proof.
  intros Hlen Hrd. apply list_eq. intros i. specialize (Hrd i).
  unfold rd in Hrd.
  destruct (a !! i) as [x|] eqn:Ha, (b !! i) as [y|] eqn:Hb;
    simpl in Hrd; try congruence.
  - apply lookup_lt_Some in Ha. apply lookup_ge_None in Hb. lia.
  - apply lookup_ge_None in Ha. apply lookup_lt_Some in Hb. lia.
Qed.

Section RawState.
Context `{H : ir_Panasonic_h} `{H' : ir_Panasonic_h_more}.

Lemma setRaw_loop (n : nat) (state : list Z) (s : IRPanasonicAc) :
  let s' := foldl (fun s i => poke i (rd state i) s) s (seq 0 n) in
  length (remote_state s') = length (remote_state s)
  /\ (forall k, (k < n)%nat -> (k < length (remote_state s))%nat ->
                peek k s' = rd state k)
  /\ (forall k, (n <= k)%nat -> peek k s' = peek k s)
  /\ _temp s' = _temp s /\ _swingh s' = _swingh s.
Proof.
  induction n as [|n IH]; cbv zeta.
  - simpl. repeat split; intros; lia.
  - rewrite seq_S, foldl_app. cbn [foldl Nat.add].
    destruct IH as (Hlen & Hin & Hout & Ht & Hh).
    set (s' := foldl _ s (seq 0 n)) in *.
    split; [now rewrite length_poke|]. split; [|split; [|now split]].
    + intros k Hk Hklen. destruct (Nat.eq_dec k n) as [->|Hne].
      * apply peek_poke_eq. lia.
      * rewrite peek_poke_ne by congruence. apply Hin; lia.
    + intros k Hk. rewrite peek_poke_ne by lia. apply Hout. lia.
Qed.

(** X17.  [setRaw] takes the state over byte for byte without checking
    it, and a state whose checksum is valid comes back from [getRaw()]
    as it went in. *)
Theorem setRaw_getRaw (state : list Z) (s : IRPanasonicAc) :
  2 <= kPanasonicAcStateLength ->
  length state = Z.to_nat kPanasonicAcStateLength ->
  length (remote_state s) = Z.to_nat kPanasonicAcStateLength ->
  remote_state (setRaw state s) = state
  /\ (validChecksum state kPanasonicAcStateLength = true ->
      fst (getRaw (setRaw state s)) = state).
Proof.
  intros HL Hstate Hlen.
  destruct (setRaw_loop (Z.to_nat kPanasonicAcStateLength) state s)
    as (Hlen' & Hin & _). fold (setRaw state s) in Hlen', Hin.
  assert (Hcopy : remote_state (setRaw state s) = state).
  { apply list_ext_rd; [lia|]. intros i.
    destruct (Nat.lt_ge_cases i (Z.to_nat kPanasonicAcStateLength)).
    - apply Hin; lia.
    - unfold rd. now rewrite !lookup_ge_None_2 by lia. }
  split; [exact Hcopy|].
  intros Hvalid. unfold getRaw, fixChecksum, calcChecksum, poke.
  cbn [fst remote_state]. rewrite Hcopy.
  unfold validChecksum in Hvalid.
  destruct (Z.ltb_spec kPanasonicAcStateLength 2); [discriminate|].
  apply Z.eqb_eq in Hvalid. rewrite <- Hvalid.
  apply list_insert_id. unfold rd.
  destruct (state !! Z.to_nat (kPanasonicAcStateLength - 1)) eqn:Hlast;
    [reflexivity|].
  apply lookup_ge_None in Hlast. lia.
Qed.

End RawState.

(** ** Contracts of the decoders *)

Section HoareRules.
Context {A B : Type}.
Variable I : decode_results -> Prop.
Variable Post : bool -> decode_results -> Prop.

Lemma hoare_bind (m : M A) (k : A -> M B)
                 (J : A -> decode_results -> Prop)
                 (Q : B -> decode_results -> Prop) :
  hoare I m Post J -> (forall a, hoare (J a) (k a) Post Q) ->
  hoare I (bind m k) Post Q.
Proof.
  intros Hm Hk w Hw. unfold bind. specialize (Hm w Hw).
  destruct (m w) as [[b|a] w']; [exact Hm|]. now apply Hk.
Qed.

Lemma hoare_ret (a : A) (Q : A -> decode_results -> Prop) :
  (forall r, I r -> Q a r) -> hoare I (ret a) Post Q.
Proof. intros HQ w Hw. now apply HQ. Qed.

Lemma hoare_return (b : bool) (Q : A -> decode_results -> Prop) :
  (forall r, I r -> Post b r) -> hoare I (return_ b) Post Q.
Proof. intros HP w Hw. now apply HP. Qed.

Lemma hoare_get (f : decode_results -> A)
                (Q : A -> decode_results -> Prop) :
  (forall r, I r -> Q (f r) r) -> hoare I (get f) Post Q.
Proof. intros HQ w Hw. now apply HQ. Qed.

Lemma hoare_if (c : bool) (m1 m2 : M A)
               (Q : A -> decode_results -> Prop) :
  (c = true -> hoare I m1 Post Q) -> (c = false -> hoare I m2 Post Q) ->
  hoare I (if c then m1 else m2) Post Q.
Proof. destruct c; auto. Qed.

End HoareRules.

Lemma hoare_pure {A} (I : decode_results -> Prop) (fact : Prop)
                 (m : M A) (Post : bool -> decode_results -> Prop)
                 (Q : A -> decode_results -> Prop) :
  (fact -> hoare I m Post Q) ->
  hoare (fun r => I r /\ fact) m Post Q.
Proof. intros Hm w [Hw Hfact]. exact (Hm Hfact w Hw). Qed.

Lemma hoare_rawbuf_at (I : decode_results -> Prop)
                      (Post : bool -> decode_results -> Prop) (i : Z) :
  hoare I (rawbuf_at i) Post (fun _ => I).
Proof. intros w Hw. exact Hw. Qed.

Lemma hoare_modify (I : decode_results -> Prop)
                   (Post : bool -> decode_results -> Prop)
                   (f : decode_results -> decode_results)
                   (Q : unit -> decode_results -> Prop) :
  (forall r, I r -> Q tt (f r)) -> hoare I (modify f) Post Q.
Proof. intros HQ w Hw. now apply HQ. Qed.

Lemma frame_refl (lim : Z) (r : decode_results) : frame lim r r.
Proof. repeat split. Qed.

Lemma frame_set_state (lim : Z) (r r' : decode_results) (i v : Z) :
  frame lim r r' -> 0 <= i < lim -> frame lim r (set_state i v r').
Proof.
  intros (Hbuf & Hlen & Hv & Ha & Hc & Hst & Hhigh) Hi.
  repeat split; try assumption; cbn [state set_state].
  - now rewrite length_insert.
  - intros k Hk. rewrite list_lookup_insert_ne by lia. now apply Hhigh.
Qed.

Lemma frame_weaken (lim lim' : Z) (r r' : decode_results) :
  lim <= lim' -> frame lim r r' -> frame lim' r r'.
Proof.
  intros Hle (Hbuf & Hlen & Hv & Ha & Hc & Hst & Hhigh).
  repeat split; try assumption. intros k Hk. apply Hhigh. lia.
Qed.

Section MatchDataRule.
Context `{R : IRrecv_h}.

Lemma hoare_matchData_at (I : decode_results -> Prop)
                         (Post : bool -> decode_results -> Prop)
                         (offset nbits onemark onespace zeromark zerospace
                          tolerance excess : Z) (MSBfirst : bool) :
  hoare I (matchData_at offset nbits onemark onespace zeromark zerospace
                        tolerance excess MSBfirst) Post (fun _ => I).
Proof. intros w Hw. exact Hw. Qed.

End MatchDataRule.

(** One step of a decoder that neither returns nor touches the record,
    or a test that returns false. *)
Ltac hoare_step I Hfalse :=
  first
    [ apply (hoare_bind I _ _ _ (fun _ => I));
      [ first [ apply hoare_rawbuf_at | apply hoare_matchData_at
              | apply hoare_get; let Hr := fresh in intros ? Hr; exact Hr ]
      | intros ? ]
    | apply hoare_if; [intros _; apply hoare_return; exact Hfalse
                      | intros ?] ].

Section Contracts.
Context `{P : ir_Panasonic_h} `{R : IRrecv_h}.




(** X19.  A capture shorter than [2 * nbits + kHeader + kFooter - 1]
    samples, or in strict mode a bit count other than the protocol's,
    makes [decodePanasonic] return false before it reads any sample. *)
Theorem decodePanasonic_rejects_unread (r : decode_results) (nbits : Z)
                                       (strict : bool) (manufacturer : Z) :
  rawlen r < 2 * nbits + kHeader + kFooter - 1
  \/ (strict = true /\ nbits <> kPanasonicBits) ->
  run (decodePanasonic nbits strict manufacturer) r
  = (false, {| results := r; reads := [] |}).
Proof.
  intros Hbad. unfold run, decodePanasonic. rewrite bind_get.
  cbn [results].
  destruct (Z.ltb_spec (rawlen r) (2 * nbits + kHeader + kFooter - 1));
    [reflexivity|].
  destruct Hbad as [Hshort|[-> Hbits]]; [lia|].
  destruct (Z.eqb_spec nbits kPanasonicBits); [contradiction|reflexivity].
Qed.

End Contracts.

Section ContractsAC.
Context `{P : ir_Panasonic_h} `{R : IRrecv_h}.

(** While [decodePanasonicAC] runs on [r]: the record is within the
    frame, and its type and bit count are still those of [r]. *)
Definition ac_running (r : decode_results) (nbits : Z)
                      (r' : decode_results) : Prop :=
  frame (Z.max 8 (nbits / 8)) r r'
  /\ decode_type r' = decode_type r /\ bits r' = bits r.

(** What [decodePanasonicAC] has done when it returns. *)
Definition ac_post (r : decode_results) (nbits : Z) (strict : bool)
                   (b : bool) (r' : decode_results) : Prop :=
  frame (Z.max 8 (nbits / 8)) r r'
  /\ if b
     then nbits mod 8 = 0
          /\ decode_type r' = PANASONIC_AC /\ bits r' = nbits
          /\ (strict = true ->
              nbits = kPanasonicAcBits
              /\ rd (state r') 0 = 0x02 /\ rd (state r') 1 = 0x20
              /\ rd (state r') 8 = 0x02 /\ rd (state r') 9 = 0x20
              /\ validChecksum (state r') (nbits / 8) = true)
     else decode_type r' = decode_type r /\ bits r' = bits r.

Lemma ac_running_false (r : decode_results) (nbits : Z) (strict : bool)
                       (r' : decode_results) :
  ac_running r nbits r' -> ac_post r nbits strict false r'.
Proof. intros (Hframe & Htype & Hbits). now split. Qed.

Lemma section_data_hoare (r : decode_results) (nbits : Z) (strict : bool)
                         (n : nat) (limit i offset m_tick s_tick : Z) :
  0 <= i -> limit <= Z.max 8 (nbits / 8) ->
  hoare (ac_running r nbits)
        (section_data n limit i offset m_tick s_tick)
        (ac_post r nbits strict)
        (fun io r' => ac_running r nbits r' /\ 0 <= fst io).
Proof.
  revert i offset. induction n as [|n IH]; intros i offset Hi Hlimit;
    cbn [section_data];
    (apply (hoare_bind _ _ _ _ (fun _ => ac_running r nbits));
       [apply hoare_get; auto|intros rawlen_]);
    (apply hoare_if; [intros Hcond|intros _; apply hoare_ret; auto]).
  - apply hoare_ret. auto.
  - apply andb_true_iff in Hcond as [_ Hlt]. apply Z.ltb_lt in Hlt.
    apply (hoare_bind _ _ _ _ (fun _ => ac_running r nbits));
      [apply hoare_matchData_at|intros data_result].
    apply hoare_if;
      [intros _; apply hoare_return; apply ac_running_false|intros _].
    apply (hoare_bind _ _ _ _ (fun _ => ac_running r nbits)).
    + apply hoare_modify. intros r' (Hframe & Htype & Hbits).
      split; [|now split]. apply frame_set_state; [exact Hframe|lia].
    + intros _. apply IH; [|exact Hlimit].
      unfold uint16, wrap. apply Z.mod_pos_bound. reflexivity.
Qed.

Lemma decodePanasonicAC_hoare (r : decode_results) (nbits : Z)
                              (strict : bool) :
  hoare (fun r' => r' = r) (decodePanasonicAC nbits strict)
        (ac_post r nbits strict) (fun _ _ => False).
Proof.
  set (I := ac_running r nbits).
  assert (Hstart : forall r', r' = r -> ac_post r nbits strict false r').
  { intros r' ->. split; [apply frame_refl|now split]. }
  assert (Hfalse : forall r', I r' -> ac_post r nbits strict false r')
    by apply ac_running_false.
  unfold decodePanasonicAC. cbv zeta.
  apply hoare_if; [intros _; apply hoare_return; exact Hstart|intros Hmod].
  apply hoare_if; [intros _; apply hoare_return; exact Hstart|intros Hbits].
  apply (hoare_bind _ _ _ _ (fun _ => I)).
  { apply hoare_get. intros r' ->. split; [apply frame_refl|now split]. }
  intros rawlen_.
  hoare_step I Hfalse.
  do 2 hoare_step I Hfalse. do 2 hoare_step I Hfalse.
  do 2 hoare_step I Hfalse.
  apply (hoare_bind I _ _ _ (fun io r' => I r' /\ 0 <= fst io));
    [apply section_data_hoare; unfold kPanasonicAcSection1Length; lia
    |intros [i offset]].
  apply (hoare_pure I (0 <= i)). intros Hi.
  do 2 hoare_step I Hfalse. do 2 hoare_step I Hfalse.
  do 2 hoare_step I Hfalse. do 2 hoare_step I Hfalse.
  apply (hoare_bind I _ _ _ (fun io r' => I r' /\ 0 <= fst io));
    [apply section_data_hoare; lia|intros [i' offset']].
  apply (hoare_pure I (0 <= i')). intros _.
  hoare_step I Hfalse.
  hoare_step I Hfalse. hoare_step I Hfalse.
  apply (hoare_bind I _ _ _ (fun _ => I)).
  { apply hoare_if; intros _.
    - apply (hoare_bind I _ _ _ (fun _ => I));
        [apply hoare_rawbuf_at|intros ?].
      apply hoare_ret. auto.
    - apply hoare_ret. auto. }
  intros gap_bad. hoare_step I Hfalse.
  intros [r0 log] (Hframe & Htype & Hbits'). cbn [results] in *.
  rewrite bind_get. cbn [results].
  destruct (strict && (_ || _ || _ || _)) eqn:Hsig;
    [now apply (Hfalse r0)|].
  destruct (strict && negb (validChecksum _ _)) eqn:Hsum;
    [now apply (Hfalse r0)|].
  cbn. split.
  - destruct Hframe as (? & ? & ? & ? & ? & ? & ?). now repeat split.
  - split; [|split; [reflexivity|split; [reflexivity|]]].
    + apply negb_false_iff in Hmod. now apply Z.eqb_eq in Hmod.
    + intros ->. cbn [andb] in *.
      apply negb_false_iff in Hbits, Hsum.
      apply Z.eqb_eq in Hbits.
      apply orb_false_iff in Hsig as [Hsig Hs9].
      apply orb_false_iff in Hsig as [Hsig Hs8].
      apply orb_false_iff in Hsig as [Hs0 Hs1].
      apply negb_false_iff in Hs0, Hs1, Hs8, Hs9.
      apply Z.eqb_eq in Hs0, Hs1, Hs8, Hs9. now repeat split.
Qed.

End ContractsAC.

Section ContractsAC_results.
Context `{P : ir_Panasonic_h} `{R : IRrecv_h}.

(** X20.  In strict mode a bit count other than the protocol's, and in
    either mode a capture shorter than [2 * nbits + kHeader + kFooter - 1]
    samples, make [decodePanasonicAC] return false before it reads any
    sample or writes anything. *)
Theorem decodePanasonicAC_rejects_unread (r : decode_results) (nbits : Z)
                                         (strict : bool) :
  (strict = true /\ nbits <> kPanasonicAcBits)
  \/ rawlen r < 2 * nbits + kHeader + kFooter - 1 ->
  run (decodePanasonicAC nbits strict) r
  = (false, {| results := r; reads := [] |}).
Proof.
  intros Hbad. unfold run, decodePanasonicAC. cbv zeta.
  destruct (negb (nbits mod 8 =? 0)); [reflexivity|].
  destruct Hbad as [[-> Hbits]|Hshort].
  - destruct (Z.eqb_spec nbits kPanasonicAcBits); [contradiction|].
    reflexivity.
  - destruct (strict && _); [reflexivity|].
    rewrite bind_get. cbn [results].
    destruct (Z.ltb_spec (rawlen r)
                (1 * (2 * nbits + kHeader + kFooter) - 1)); [reflexivity|].
    lia.
Qed.


(** X22.  Whenever [decodePanasonicAC] returns true, the bit count is a
    multiple of 8 and the record has the type PANASONIC_AC and that bit
    count; in strict mode the bit count is the protocol's, bytes 0, 1
    and 8, 9 of the state array are 0x02, 0x20, and the array passes
    [validChecksum] over [nbits / 8] bytes. *)
Theorem decodePanasonicAC_success (r : decode_results) (nbits : Z)
                                  (strict : bool) :
  let out := run (decodePanasonicAC nbits strict) r in
  let r' := results (snd out) in
  fst out = true ->
  nbits mod 8 = 0
  /\ decode_type r' = PANASONIC_AC
  /\ bits r' = nbits
  /\ (strict = true ->
      nbits = kPanasonicAcBits
      /\ rd (state r') 0 = 0x02 /\ rd (state r') 1 = 0x20
      /\ rd (state r') 8 = 0x02 /\ rd (state r') 9 = 0x20
      /\ validChecksum (state r') (nbits / 8) = true).
Proof.
  intros out r' Htrue. subst r' out. unfold run in *.
  pose proof (decodePanasonicAC_hoare r nbits strict
                {| results := r; reads := [] |} eq_refl) as Hpost.
  destruct (decodePanasonicAC nbits strict _) as [[b|b] w];
    [|contradiction].
  cbn [fst snd] in *. subst b. exact (proj2 Hpost).
Qed.

End ContractsAC_results.

(** ** The senders *)

(** The bytes that a call of [sendGeneric] on an array is to send. *)
Definition bytes_of (call : sendGeneric_call) : list Z :=
  match call with
  | sendGeneric_bytes _ _ _ _ _ _ _ _ dataptr nbytes _ _ _ _ =>
      take (Z.to_nat nbytes) dataptr
  | sendGeneric_value _ _ _ _ _ _ _ _ _ _ _ _ _ _ _ => []
  end.

Section Senders.
Context `{H : ir_Panasonic_h} `{H' : ir_Panasonic_h_more}.

(** X23.  [sendPanasonic] of the address and the command into which
    [decodePanasonic] splits a 48-bit value sends what [sendPanasonic64]
    sends for the value. *)
Theorem sendPanasonic_rejoins (v nbits repeat : Z) :
  0 <= v < 2 ^ 48 ->
  0 <= Z.shiftr v 32 < 2 ^ 16
  /\ sendPanasonic (uint32 (Z.shiftr v 32)) (uint32 (Z.land v 0xFFFFFFFF))
                   nbits repeat
     = sendPanasonic64 v nbits repeat.
Proof.
  intros Hv.
  assert (Htop : 0 <= Z.shiftr v 32 < 2 ^ 16).
  { rewrite Z.shiftr_div_pow2 by lia.
    change (2 ^ 48) with (2 ^ 32 * 2 ^ 16) in Hv.
    split; [apply Z.div_pos; lia|apply Z.div_lt_upper_bound; lia]. }
  split; [exact Htop|].
  unfold sendPanasonic. f_equal.
  change 0xFFFFFFFF with (Z.ones 32). rewrite Z.land_ones by lia.
  unfold uint32, wrap. rewrite Z.mod_mod by lia.
  rewrite (Z.mod_small (Z.shiftr v 32)) by lia.
  rewrite lor_shiftl_add by (try apply Z.mod_pos_bound; lia).
  rewrite Z.shiftr_div_pow2 by lia.
  pose proof (Z.div_mod v (2 ^ 32)). lia.
Qed.

Lemma sendPanasonicAC_turns (k fuel : nat) (data : list Z)
                            (nbytes repeat_ r : Z) :
  0 <= r -> repeat_ < 65535 -> r + Z.of_nat k = repeat_ + 1 ->
  (k <= fuel)%nat ->
  sendPanasonicAC_loop fuel data nbytes repeat_ r
  = Some (concat (replicate k (sendPanasonicAC_sections data nbytes))).
Proof.
  revert fuel r. induction k as [|k IH]; intros fuel r Hr Hrepeat Hk Hfuel.
  - destruct fuel; cbn [sendPanasonicAC_loop];
      (destruct (Z.leb_spec r repeat_); [lia|reflexivity]).
  - destruct fuel as [|fuel]; [lia|]. cbn [sendPanasonicAC_loop].
    destruct (Z.leb_spec r repeat_); [|lia].
    assert (Hnext : uint16 (r + 1) = r + 1)
      by (unfold uint16, wrap; apply Z.mod_small; lia).
    rewrite Hnext, (IH fuel (r + 1)) by lia. reflexivity.
Qed.

(** X24.  [sendPanasonicAC] sends nothing for fewer bytes than the state
    length, and otherwise, for a repeat count below 65535, its two
    sections [repeat + 1] times over, in [repeat + 1] turns of the
    loop. *)
Theorem sendPanasonicAC_sends (fuel : nat) (data : list Z)
                              (nbytes repeat_ : Z) :
  0 <= repeat_ < 65535 ->
  (Z.to_nat (repeat_ + 1) <= fuel)%nat ->
  (nbytes < kPanasonicAcStateLength ->
   sendPanasonicAC fuel data nbytes repeat_ = Some [])
  /\ (kPanasonicAcStateLength <= nbytes ->
      sendPanasonicAC fuel data nbytes repeat_
      = Some (concat (replicate (Z.to_nat (repeat_ + 1))
                                (sendPanasonicAC_sections data nbytes)))).
Proof.
  intros Hrepeat Hfuel. unfold sendPanasonicAC. split; intros Hn.
  - destruct (Z.ltb_spec nbytes kPanasonicAcStateLength); [reflexivity|lia].
  - destruct (Z.ltb_spec nbytes kPanasonicAcStateLength); [lia|].
    apply sendPanasonicAC_turns; lia.
Qed.

(** X25.  With the largest repeat count, 65535, the loop of
    [sendPanasonicAC] never ends: its 16-bit counter cannot exceed the
    count, so no number of turns is enough. *)
Theorem sendPanasonicAC_endless (fuel : nat) (data : list Z) (nbytes : Z) :
  kPanasonicAcStateLength <= nbytes ->
  sendPanasonicAC fuel data nbytes 65535 = None.
Proof.
  intros Hn. unfold sendPanasonicAC.
  destruct (Z.ltb_spec nbytes kPanasonicAcStateLength); [lia|].
  assert (Hloop : forall r, 0 <= r <= 65535 ->
            sendPanasonicAC_loop fuel data nbytes 65535 r = None).
  { induction fuel as [|fuel IH]; intros r Hr; cbn [sendPanasonicAC_loop];
      (destruct (Z.leb_spec r 65535); [|lia]); [reflexivity|].
    rewrite IH; [reflexivity|].
    pose proof (Z.mod_pos_bound (r + 1) (2 ^ 16) ltac:(lia)).
    unfold uint16, wrap. change (2 ^ 16) with 65536 in *. lia. }
  apply Hloop. lia.
Qed.

(** X26.  The two sections of one turn carry between them the first
    [nbytes] bytes of the data, in order: eight in the first section and
    the rest in the second. *)
Theorem sendPanasonicAC_sections_bytes (data : list Z) (nbytes : Z) :
  8 <= nbytes < 2 ^ 16 ->
  map bytes_of (sendPanasonicAC_sections data nbytes)
  = [take 8 data; take (Z.to_nat nbytes - 8) (drop 8 data)]
  /\ concat (map bytes_of (sendPanasonicAC_sections data nbytes))
     = take (Z.to_nat nbytes) data.
Proof.
  intros Hn.
  assert (Hmap : map bytes_of (sendPanasonicAC_sections data nbytes)
                 = [take 8 data; take (Z.to_nat nbytes - 8) (drop 8 data)]).
  { unfold sendPanasonicAC_sections, bytes_of, kPanasonicAcSection1Length.
    cbn [map]. unfold uint16, wrap. rewrite Z.mod_small by lia.
    change (Z.to_nat 8) with 8%nat.
    now replace (Z.to_nat (nbytes - 8)) with (Z.to_nat nbytes - 8)%nat
      by lia. }
  split; [exact Hmap|]. rewrite Hmap. cbn [concat]. rewrite app_nil_r.
  rewrite <- (take_drop 8 (take (Z.to_nat nbytes) data)).
  rewrite take_take, skipn_firstn_comm.
  now replace (8 `min` Z.to_nat nbytes)%nat with 8%nat by lia.
Qed.

End Senders.

(** ** The further results at concrete inputs *)

Import ReferenceMore.

Lemma setPower_getPower_witness :
  0 < kPanasonicAcPower < 256
  /\ (13 < length (remote_state fresh))%nat
  /\ getPower (setPower true fresh) = true.
Proof.
  split; [evaluate|]. split; [evaluate|].
  apply (setPower_getPower true fresh); evaluate.
Defined.

Lemma setPower_frame_witness :
  0 <= peek 13 fresh < 256
  /\ getMode (setPower true fresh) = getMode fresh.
Proof.
  split; [evaluate|].
  apply (setPower_frame true fresh); evaluate.
Defined.

Lemma setMode_getMode_witness :
  (13 < length (remote_state fresh))%nat
  /\ getMode (setMode kPanasonicAcHeat fresh) = kPanasonicAcHeat.
Proof.
  split; [evaluate|].
  rewrite (setMode_getMode kPanasonicAcHeat fresh); evaluate.
Defined.

Lemma setMode_frame_witness :
  (13 < length (remote_state fresh))%nat
  /\ getPower (setMode kPanasonicAcHeat (on fresh)) = getPower (on fresh).
Proof.
  assert (Hlen : (13 < length (remote_state (on fresh)))%nat) by evaluate.
  split; [evaluate|].
  apply (setMode_frame kPanasonicAcHeat (on fresh)); [evaluate|exact Hlen].
Defined.

Lemma setTemp_getTemp_witness :
  (14 < length (remote_state fresh))%nat
  /\ getTemp (setTemp 40 true fresh) <= kPanasonicAcMaxTemp
  /\ getTemp (setTemp 21 true fresh) = 21.
Proof.
  assert (Hlen : (14 < length (remote_state fresh))%nat) by evaluate.
  split; [exact Hlen|]. split.
  - apply (setTemp_getTemp 40 true fresh); [evaluate|evaluate|exact Hlen].
  - apply (setTemp_getTemp 21 true fresh);
      [evaluate|evaluate|exact Hlen|evaluate].
Defined.

Lemma setFan_getFan_witness :
  (16 < length (remote_state fresh))%nat
  /\ getFan (setFan kPanasonicAcFanAuto fresh) = kPanasonicAcFanAuto
  /\ setFan 5 fresh = fresh.
Proof.
  assert (Hlen : (16 < length (remote_state fresh))%nat) by evaluate.
  split; [exact Hlen|]. split.
  - apply (setFan_getFan kPanasonicAcFanAuto fresh);
      [evaluate|evaluate|exact Hlen|right; reflexivity|evaluate].
  - apply (setFan_getFan 5 fresh);
      [evaluate|evaluate|exact Hlen|evaluate|evaluate].
Defined.

Lemma setSwingV_getSwingVertical_witness :
  (16 < length (remote_state fresh))%nat
  /\ getSwingVertical (setSwingV 3 fresh) = 3.
Proof.
  assert (Hlen : (16 < length (remote_state fresh))%nat) by evaluate.
  split; [exact Hlen|].
  apply (setSwingV_getSwingVertical 3 fresh);
    [evaluate|evaluate|evaluate|exact Hlen|evaluate|evaluate].
Defined.

Lemma fan_swing_independent_witness :
  0 <= peek 16 fresh < 256
  /\ getSwingVertical (setFan 2 fresh) = getSwingVertical fresh
  /\ getFan (setSwingV 3 fresh) = getFan fresh.
Proof.
  split; [evaluate|].
  apply (fan_swing_independent 2 3 fresh); evaluate.
Defined.

Lemma flag_off_keeps_other_witness :
  (21 < length (remote_state (setPowerful true fresh)))%nat
  /\ getPowerful (setQuiet false (setPowerful true fresh))
     = getPowerful (setPowerful true fresh).
Proof.
  assert (Hlen : (21 < length (remote_state (setPowerful true fresh)))%nat)
    by evaluate.
  split; [exact Hlen|].
  destruct (flag_off_keeps_other (setPowerful true fresh))
    as (_ & Hkeep & _); [evaluate|evaluate|evaluate|exact Hlen|].
  exact Hkeep.
Defined.

Lemma setModel_frame_witness :
  0 <= peek 13 fresh < 256
  /\ getMode (setModel kPanasonicLke fresh) = getMode fresh.
Proof.
  split; [evaluate|].
  apply (setModel_frame kPanasonicLke fresh); evaluate.
Defined.

Lemma setModel_power_off_witness :
  getPower (on fresh) = true
  /\ getPower (setModel kPanasonicNke (on fresh)) = false.
Proof.
  split; [evaluate|].
  apply (setModel_power_off kPanasonicNke (on fresh)); evaluate.
Defined.

Lemma setModel_idempotent_witness :
  (25 < length (remote_state fresh))%nat
  /\ setModel kPanasonicDke (setModel kPanasonicDke fresh)
     = setModel kPanasonicDke fresh.
Proof.
  assert (Hlen : (25 < length (remote_state fresh))%nat) by evaluate.
  split; [exact Hlen|].
  exact (setModel_idempotent kPanasonicDke fresh Hlen).
Defined.

Lemma setSwingH_written_witness :
  getModel (setModel kPanasonicNke fresh) = kPanasonicNke
  /\ getSwingHorizontal
       (setSwingH kPanasonicAcSwingHLeft (setModel kPanasonicNke fresh))
     = kPanasonicAcSwingHMiddle.
Proof.
  assert (Hnke : getModel (setModel kPanasonicNke fresh) = kPanasonicNke)
    by evaluate.
  split; [exact Hnke|].
  destruct (setSwingH_written kPanasonicAcSwingHLeft
              (setModel kPanasonicNke fresh)) as (_ & Hvalid & _);
    [evaluate|].
  destruct Hvalid as (_ & _ & Hmiddle); [evaluate|].
  apply Hmiddle. left. exact Hnke.
Defined.

Lemma setSwingH_keeps_model_witness :
  getModel (setModel kPanasonicDke fresh) = kPanasonicDke
  /\ getModel (setSwingH kPanasonicAcSwingHMiddle
                 (setModel kPanasonicDke fresh))
     = getModel (setModel kPanasonicDke fresh).
Proof.
  split; [evaluate|].
  apply (setSwingH_keeps_model kPanasonicAcSwingHMiddle
           (setModel kPanasonicDke fresh)); evaluate.
Defined.

Lemma getRaw_idempotent_witness :
  length (remote_state fresh) = Z.to_nat kPanasonicAcStateLength
  /\ getRaw (snd (getRaw fresh)) = getRaw fresh.
Proof.
  split; [evaluate|].
  apply (getRaw_idempotent fresh); evaluate.
Defined.

Lemma validChecksum_detects_change_witness :
  validChecksum (fst (getRaw fresh)) 27 = true
  /\ validChecksum (<[14%nat := 50]> (fst (getRaw fresh))) 27 = false.
Proof.
  split; [evaluate|].
  apply (validChecksum_detects_change (fst (getRaw fresh)) 27 14 50);
    evaluate.
Defined.

Lemma setRaw_getRaw_witness :
  validChecksum (fst (getRaw (on fresh))) kPanasonicAcStateLength = true
  /\ fst (getRaw (setRaw (fst (getRaw (on fresh))) fresh))
     = fst (getRaw (on fresh)).
Proof.
  assert (Hvalid : validChecksum (fst (getRaw (on fresh)))
                                 kPanasonicAcStateLength = true)
    by evaluate.
  split; [exact Hvalid|].
  destruct (setRaw_getRaw (fst (getRaw (on fresh))) fresh)
    as [_ Hround]; [evaluate|evaluate|evaluate|].
  exact (Hround Hvalid).
Defined.


Lemma decodePanasonic_rejects_unread_witness :
  rawlen (capture [10000; 1728; 864]) < 2 * 48 + kHeader + kFooter - 1
  /\ run (decodePanasonic 48 false 0x4004) (capture [10000; 1728; 864])
     = (false, {| results := capture [10000; 1728; 864]; reads := [] |}).
Proof.
  split; [evaluate|].
  apply (decodePanasonic_rejects_unread (capture [10000; 1728; 864])
           48 false 0x4004).
  left. evaluate.
Defined.

Lemma decodePanasonicAC_rejects_unread_witness :
  128 <> kPanasonicAcBits
  /\ run (decodePanasonicAC 128 true) captureAC
     = (false, {| results := captureAC; reads := [] |}).
Proof.
  split; [evaluate|].
  apply (decodePanasonicAC_rejects_unread captureAC 128 true).
  left. split; [reflexivity|evaluate].
Defined.

Lemma decodePanasonicAC_success_witness :
  fst (run (decodePanasonicAC 216 true) captureAC) = true
  /\ validChecksum
       (state (results (snd (run (decodePanasonicAC 216 true) captureAC))))
       (216 / 8) = true.
Proof.
  assert (Htrue : fst (run (decodePanasonicAC 216 true) captureAC) = true)
    by evaluate.
  split; [exact Htrue|].
  destruct (decodePanasonicAC_success captureAC 216 true Htrue)
    as (_ & _ & _ & Hstrict).
  destruct (Hstrict eq_refl) as (_ & _ & _ & _ & _ & Hvalid).
  exact Hvalid.
Defined.

Lemma sendPanasonic_rejoins_witness :
  0 <= command48 < 2 ^ 48
  /\ sendPanasonic (uint32 (Z.shiftr command48 32))
                   (uint32 (Z.land command48 0xFFFFFFFF)) 48 0
     = sendPanasonic64 command48 48 0.
Proof.
  split; [evaluate|].
  apply (sendPanasonic_rejoins command48 48 0). evaluate.
Defined.

Lemma sendPanasonicAC_sends_witness :
  kPanasonicAcStateLength <= 27
  /\ sendPanasonicAC 2 (fst (getRaw fresh)) 27 1
     = Some (concat (replicate (Z.to_nat (1 + 1))
                       (sendPanasonicAC_sections (fst (getRaw fresh)) 27))).
Proof.
  split; [evaluate|].
  apply (sendPanasonicAC_sends 2 (fst (getRaw fresh)) 27 1); evaluate.
Defined.

Lemma sendPanasonicAC_endless_witness :
  kPanasonicAcStateLength <= 27
  /\ sendPanasonicAC 100 (fst (getRaw fresh)) 27 65535 = None.
Proof.
  split; [evaluate|].
  apply (sendPanasonicAC_endless 100 (fst (getRaw fresh)) 27). evaluate.
Defined.

Lemma sendPanasonicAC_sections_bytes_witness :
  8 <= 27 < 2 ^ 16
  /\ concat (map bytes_of
               (sendPanasonicAC_sections (fst (getRaw fresh)) 27))
     = take (Z.to_nat 27) (fst (getRaw fresh)).
Proof.
  split; [evaluate|].
  apply (sendPanasonicAC_sections_bytes (fst (getRaw fresh)) 27). evaluate.
Defined.
